(** * Region quadtree image compressor: shallow embedding of [quadtree.py]

    The Python module builds a region quadtree over a numpy image, merges
    sibling quadrants whose colours are similar, and paints the tree back
    into a buffer.  This file embeds the module function by function and
    proves the properties stated for it.

    Modelling conventions.
    - Python integers are [Z]; Python/numpy floating point numbers are exact
      rationals [Q]: an idealisation without rounding or overflow.  It is
      exact wherever binary64 is, in particular for the halving of integers
      below 2^53 on which the geometry rests.
    - A Python exception is the [Raise] outcome of the [res] monad; recursion
      that is not structural takes a fuel argument and answers [OutOfFuel]
      when it is used up.
    - Nodes are mutable Python objects, each owned by exactly one parent
      slot; in-place updates are modelled by returning the updated node.
      The quadtree object is threaded through the calls that assign to its
      attributes.
    - A leaf colour read from a 3-D image is a numpy view of the image.  No
      function of the module writes into an array a colour was read from
      (rendering paints a fresh buffer), so colours are modelled as values. *)

From Stdlib Require Import ZArith QArith Lqa String List Lia Bool.
From stdpp Require Import base tactics option list.

Local Open Scope Z_scope.

(** ** Outcomes of a Python call *)

Inductive exn : Type :=
  | AttributeError      (* attribute access on [None] *)
  | IndexError          (* integer index out of range *)
  | UnboundLocalError   (* local variable read before assignment *)
  | ValueError.         (* numpy: shapes cannot be broadcast / stacked *)

Inductive res (A : Type) : Type :=
  | Ok (a : A)
  | Raise (e : exn)
  | OutOfFuel.
Arguments Ok {A} a.
Arguments Raise {A} e.
Arguments OutOfFuel {A}.

Definition bind {A B : Type} (m : res A) (k : A → res B) : res B :=
  match m with
  | Ok a => k a
  | Raise e => Raise e
  | OutOfFuel => OutOfFuel
  end.

Notation "'let*' x ':=' m 'in' k" := (bind m (fun x => k))
  (at level 10, x pattern, m at level 200, k at level 200).

(** ** Numbers *)

(** Python's [int(q)] on a float: truncation toward zero. *)
Definition py_int (q : Q) : Z := Z.quot (Qnum q) (Zpos (Qden q)).

Definition Qltb (a b : Q) : bool := negb (Qle_bool b a).

Definition Qsum (xs : list Q) : Q := fold_right Qplus (0 : Q)%Q xs.

(** [np.mean] and [np.var] of a one-dimensional sample (numpy's [var] is the
    mean of the squared deviations from the mean, i.e. divisor [len]). *)
Definition np_mean (xs : list Q) : Q :=
  (Qsum xs / inject_Z (Z.of_nat (length xs)))%Q.

Definition np_var (xs : list Q) : Q :=
  let m := np_mean xs in
  np_mean (map (fun x => ((x - m) * (x - m))%Q) xs).

(** ** Colours and nodes *)

(** A colour is what [image[y, x]] yields: a numpy scalar for a 2-D image,
    a vector with one entry per channel for a 3-D image. *)
Inductive Color : Type :=
  | Scalar (v : Q)
  | Vector (v : list Q).

Definition Corners : Type := (Z * Z * Z * Z)%type.

#[local] Unset Elimination Schemes.
Inductive Node : Type := mkNode {
  color : option Color;
  nw : option Node;
  ne : option Node;
  sw : option Node;
  se : option Node;
  ul_x : Z;
  ul_y : Z;
  dr_x : Z;
  dr_y : Z;
  level : Z
}.
#[local] Set Elimination Schemes.

(** [Node.__init__(color, corners, level)] *)
Definition Node_init (c : option Color) (corners : Corners) (lvl : Z) : Node :=
  let '(x0, y0, x1, y1) := corners in
  {| color := c; nw := None; ne := None; sw := None; se := None;
     ul_x := x0; ul_y := y0; dr_x := x1; dr_y := y1; level := lvl |}.

Definition set_color (n : Node) (c : option Color) : Node :=
  {| color := c; nw := nw n; ne := ne n; sw := sw n; se := se n;
     ul_x := ul_x n; ul_y := ul_y n; dr_x := dr_x n; dr_y := dr_y n;
     level := level n |}.

Definition set_children (n : Node) (a b c d : option Node) : Node :=
  {| color := color n; nw := a; ne := b; sw := c; se := d;
     ul_x := ul_x n; ul_y := ul_y n; dr_x := dr_x n; dr_y := dr_y n;
     level := level n |}.

Definition corners_of (n : Node) : Corners := (ul_x n, ul_y n, dr_x n, dr_y n).

(** ** Geometry: [compute_image_corners] *)

(** The [else] branch of the tag dispatch is [assert('Proper child needed.')]:
    the asserted value is a non-empty string, which is truthy, so the
    assertion never fires and [x_shift], [y_shift] stay unbound; the first
    read of [x_shift] then raises [UnboundLocalError]. *)
Definition quadrant_shift (child : string) : res (Z * Z) :=
  if String.eqb child "nw" then Ok (0, 0)
  else if String.eqb child "ne" then Ok (1, 0)
  else if String.eqb child "sw" then Ok (0, 1)
  else if String.eqb child "se" then Ok (1, 1)
  else Raise UnboundLocalError.

Definition compute_image_corners (node : Node) (child : string) : res Corners :=
  let shifts := quadrant_shift child in
  let half_width := (inject_Z (dr_x node - ul_x node + 1) / 2)%Q in
  let half_height := (inject_Z (dr_y node - ul_y node + 1) / 2)%Q in
  let* (x_shift, y_shift) := shifts in
  let ulx := py_int (inject_Z (ul_x node) + inject_Z x_shift * half_width)%Q in
  let uly := py_int (inject_Z (ul_y node) + inject_Z y_shift * half_height)%Q in
  let drx := py_int (inject_Z ulx + half_width - 1)%Q in
  let dry := py_int (inject_Z uly + half_height - 1)%Q in
  Ok (ulx, uly, drx, dry).

(** ** numpy arrays of rank 2 and 3 *)

(** An image buffer of shape [(height, width)] ([channels = None]) or
    [(height, width, c)] ([channels = Some c]).  [pix] holds the rows, each row
    its pixels, each pixel its channel values; a pixel of a 2-D array is the
    one-element list of its value. *)
Record ndarray : Type := mkArray {
  height : nat;
  width : nat;
  channels : option nat;
  pix : list (list (list Q))
}.

Definition chan_len (a : ndarray) : nat :=
  match channels a with None => 1%nat | Some c => c end.

Definition shape (a : ndarray) : list nat :=
  match channels a with
  | None => [height a; width a]
  | Some c => [height a; width a; c]
  end.

(** Representation invariant: the nested lists have the declared shape. *)
Definition wf_array (a : ndarray) : Prop :=
  length (pix a) = height a ∧
  Forall (fun row => length row = width a ∧
                     Forall (fun p => length p = chan_len a) row) (pix a).

(** A Python integer index into an axis of length [n]. *)
Definition py_index (n : nat) (i : Z) : res nat :=
  let j := if i <? 0 then i + Z.of_nat n else i in
  if (0 <=? j) && (j <? Z.of_nat n) then Ok (Z.to_nat j) else Raise IndexError.

(** A bound of a Python slice on an axis of length [n]: negative bounds count
    from the end, and the result is clipped into [0..n]. *)
Definition py_clip (n : nat) (i : Z) : nat :=
  let j := if i <? 0 then i + Z.of_nat n else i in
  Z.to_nat (Z.min (Z.max j 0) (Z.of_nat n)).

(** [image[y, x]] *)
Definition np_getitem (a : ndarray) (y x : Z) : res Color :=
  let* i := py_index (height a) y in
  let* j := py_index (width a) x in
  match pix a !! i ≫= (.!! j) with
  | Some p =>
      match channels a with
      | None => Ok (Scalar (hd 0%Q p))
      | Some _ => Ok (Vector p)
      end
  | None => Raise IndexError
  end.

(** Broadcasting of an assigned value along the last axis of the target.
    A scalar always fits; a vector of length [L] fits a last axis of length
    [L], and a vector of length 1 fits every axis. *)
Definition broadcastable (v : Color) (last : nat) : bool :=
  match v with
  | Scalar _ => true
  | Vector l => (length l =? last)%nat || (length l =? 1)%nat
  end.

Definition bc (v : Color) (k : nat) : Q :=
  match v with
  | Scalar q => q
  | Vector l => if (length l =? 1)%nat then hd 0%Q l else nth k l 0%Q
  end.

(** Overwrite the pixels of rows [y0..y1) and columns [x0..x1) with [f i j],
    [i], [j] being the offsets inside the region. *)
Definition set_region (a : ndarray) (y0 y1 x0 x1 : nat)
    (f : nat → nat → list Q) : ndarray :=
  {| height := height a; width := width a; channels := channels a;
     pix := imap (fun y row =>
              if (y0 <=? y)%nat && (y <? y1)%nat then
                imap (fun x old =>
                  if (x0 <=? x)%nat && (x <? x1)%nat
                  then f (y - y0)%nat (x - x0)%nat else old) row
              else row) (pix a) |}.

(** [a[ya:yb, xa:xb] = v] *)
Definition np_setitem_block (a : ndarray) (ya yb xa xb : Z) (v : Color)
    : res ndarray :=
  let y0 := py_clip (height a) ya in let y1 := py_clip (height a) yb in
  let x0 := py_clip (width a) xa in let x1 := py_clip (width a) xb in
  match channels a with
  | None =>
      if broadcastable v (x1 - x0)
      then Ok (set_region a y0 y1 x0 x1 (fun _ j => [bc v j]))
      else Raise ValueError
  | Some c =>
      if broadcastable v c
      then Ok (set_region a y0 y1 x0 x1 (fun _ _ => map (bc v) (seq 0 c)))
      else Raise ValueError
  end.

(** [a[ya:yb, x] = v] *)
Definition np_setitem_col (a : ndarray) (ya yb x : Z) (v : Color)
    : res ndarray :=
  let* j := py_index (width a) x in
  let y0 := py_clip (height a) ya in let y1 := py_clip (height a) yb in
  match channels a with
  | None =>
      if broadcastable v (y1 - y0)
      then Ok (set_region a y0 y1 j (S j) (fun i _ => [bc v i]))
      else Raise ValueError
  | Some c =>
      if broadcastable v c
      then Ok (set_region a y0 y1 j (S j) (fun _ _ => map (bc v) (seq 0 c)))
      else Raise ValueError
  end.

(** [a[y, xa:xb] = v] *)
Definition np_setitem_row (a : ndarray) (y xa xb : Z) (v : Color)
    : res ndarray :=
  let* i := py_index (height a) y in
  let x0 := py_clip (width a) xa in let x1 := py_clip (width a) xb in
  match channels a with
  | None =>
      if broadcastable v (x1 - x0)
      then Ok (set_region a i (S i) x0 x1 (fun _ j => [bc v j]))
      else Raise ValueError
  | Some c =>
      if broadcastable v c
      then Ok (set_region a i (S i) x0 x1 (fun _ _ => map (bc v) (seq 0 c)))
      else Raise ValueError
  end.

(** [np.empty(shape)]: a fresh buffer whose contents are arbitrary; [g] gives
    the value found at each flat position. *)
Definition np_empty (g : nat → Q) (h w : nat) (c : option nat) : ndarray :=
  let cl := match c with None => 1%nat | Some k => k end in
  {| height := h; width := w; channels := c;
     pix := (fun y => (fun x =>
              (fun k => g ((y * w + x) * cl + k)%nat) <$> seq 0 cl)
              <$> seq 0 w) <$> seq 0 h |}.

(** The result of [np.squeeze]: the axes of length 1 are dropped, the data
    (in row-major order) are kept. *)
Record flat_array : Type := mkFlat {
  fa_shape : list nat;
  fa_data : list Q
}.

Definition np_squeeze (a : ndarray) : flat_array :=
  {| fa_shape := filter (fun d => d ≠ 1%nat) (shape a);
     fa_data := concat (concat (pix a)) |}.

(** ** The quadtree *)

Record Quadtree : Type := mkQuadtree {
  image : ndarray;
  root : Node
}.

(** [Quadtree.__init__(image)] *)
Definition Quadtree_init (img : ndarray) : Quadtree :=
  {| image := img;
     root := Node_init None
               (0, 0, Z.of_nat (width img) - 1, Z.of_nat (height img) - 1) 0 |}.

Definition set_image (qt : Quadtree) (a : ndarray) : Quadtree :=
  {| image := a; root := root qt |}.

Definition set_root (qt : Quadtree) (n : Node) : Quadtree :=
  {| image := image qt; root := n |}.

Definition set_nw (n : Node) (c : option Node) : Node :=
  set_children n c (ne n) (sw n) (se n).
Definition set_ne (n : Node) (c : option Node) : Node :=
  set_children n (nw n) c (sw n) (se n).
Definition set_sw (n : Node) (c : option Node) : Node :=
  set_children n (nw n) (ne n) c (se n).
Definition set_se (n : Node) (c : option Node) : Node :=
  set_children n (nw n) (ne n) (sw n) c.

(** *** Building *)

Fixpoint build_quadtree_recursive (fuel : nat) (qt : Quadtree) (node : Node)
    : res Node :=
  match fuel with
  | O => OutOfFuel
  | S fuel =>
      if (dr_x node - ul_x node =? 0) && (dr_y node - ul_y node =? 0) then
        let* c := np_getitem (image qt) (ul_y node) (ul_x node) in
        Ok (set_color node (Some c))
      else
        let* cs := compute_image_corners node "nw" in
        let* a := build_quadtree_recursive fuel qt
                    (Node_init None cs (level node + 1)) in
        let node := set_nw node (Some a) in
        let* cs := compute_image_corners node "ne" in
        let* b := build_quadtree_recursive fuel qt
                    (Node_init None cs (level node + 1)) in
        let node := set_ne node (Some b) in
        let* cs := compute_image_corners node "sw" in
        let* c := build_quadtree_recursive fuel qt
                    (Node_init None cs (level node + 1)) in
        let node := set_sw node (Some c) in
        let* cs := compute_image_corners node "se" in
        let* d := build_quadtree_recursive fuel qt
                    (Node_init None cs (level node + 1)) in
        Ok (set_se node (Some d))
  end.

Definition build_quadtree (fuel : nat) (qt : Quadtree) : res Quadtree :=
  let* r := build_quadtree_recursive fuel qt (root qt) in
  Ok (set_root qt r).

(** *** Combining colours *)

(** [np.array([c1, c2, c3, c4])]: four scalars stack to a vector of samples,
    four vectors of one length to a 4-row matrix; anything else is ragged and
    refused by numpy (1.24 and later).  Colours read from one image always
    stack. *)
Inductive stacked : Type :=
  | Stack1 (samples : list Q)
  | Stack2 (ncols : nat) (rows : list (list Q)).

Definition np_stack (c1 c2 c3 c4 : Color) : res stacked :=
  match c1, c2, c3, c4 with
  | Scalar a, Scalar b, Scalar c, Scalar d => Ok (Stack1 [a; b; c; d])
  | Vector a, Vector b, Vector c, Vector d =>
      if (length b =? length a)%nat && (length c =? length a)%nat
         && (length d =? length a)%nat
      then Ok (Stack2 (length a) [a; b; c; d])
      else Raise ValueError
  | _, _, _, _ => Raise ValueError
  end.

Definition column (rows : list (list Q)) (j : nat) : list Q :=
  map (fun r => nth j r 0%Q) rows.

(** [np.var(s, axis=0)] and [np.mean(s, axis=0)] *)
Definition np_var_axis0 (s : stacked) : Color :=
  match s with
  | Stack1 xs => Scalar (np_var xs)
  | Stack2 n rows => Vector (map (fun j => np_var (column rows j)) (seq 0 n))
  end.

Definition np_mean_axis0 (s : stacked) : Color :=
  match s with
  | Stack1 xs => Scalar (np_mean xs)
  | Stack2 n rows => Vector (map (fun j => np_mean (column rows j)) (seq 0 n))
  end.

Definition np_sum (c : Color) : Q :=
  match c with
  | Scalar q => q
  | Vector l => Qsum l
  end.

(** [child.color] for a child slot: a [None] slot has no attributes. *)
Definition slot_color (child : option Node) : res (option Color) :=
  match child with
  | Some n => Ok (color n)
  | None => Raise AttributeError
  end.

(** The test is a chain of [or], evaluated left to right and stopping at the
    first child without a colour. *)
Definition combine_colors (node : Node) (threshold : Q) : res (option Color) :=
  let* o1 := slot_color (nw node) in
  match o1 with None => Ok None | Some c1 =>
  let* o2 := slot_color (ne node) in
  match o2 with None => Ok None | Some c2 =>
  let* o3 := slot_color (sw node) in
  match o3 with None => Ok None | Some c3 =>
  let* o4 := slot_color (se node) in
  match o4 with None => Ok None | Some c4 =>
    let* s := np_stack c1 c2 c3 c4 in
    let difference := np_sum (np_var_axis0 s) in
    if Qltb difference threshold
    then Ok (Some (np_mean_axis0 s))
    else Ok None
  end end end end.

(** *** Compressing *)

Fixpoint compress_quadtree_recursive (qt : Quadtree) (node : Node)
    (threshold : Q) {struct node} : res Node :=
  match nw node, ne node, sw node, se node with
  | None, None, None, None => Ok node
  | a, b, c, d =>
      let go o :=
        match o with
        | Some n => compress_quadtree_recursive qt n threshold
        | None => Raise AttributeError
        end in
      let* a' := go a in
      let* b' := go b in
      let* c' := go c in
      let* d' := go d in
      let node := set_children node (Some a') (Some b') (Some c') (Some d') in
      let* col := combine_colors node threshold in
      let node := set_color node col in
      match color node with
      | Some _ => Ok (set_children node None None None None)
      | None => Ok node
      end
  end.

Definition compress_quadtree (qt : Quadtree) (threshold : Q) : res Quadtree :=
  let* r := compress_quadtree_recursive qt (root qt) threshold in
  Ok (set_root qt r).

(** *** Rendering *)

(** [np.array([0, 0, 0])], the border colour. *)
Definition black : Color := Vector [0%Q; 0%Q; 0%Q].

(** [draw_color(qt, node, draw_box)].  Its only caller has tested that the
    node has a colour; [c] is that colour, [node.color].  (numpy would store
    a missing colour as nan, a value the rationals do not have.) *)
Definition draw_color (qt : Quadtree) (node : Node) (c : Color)
    (draw_box : bool) : res Quadtree :=
  let* img := np_setitem_block (image qt) (ul_y node) (dr_y node + 1)
                (ul_x node) (dr_x node + 1) c in
  if draw_box then
    let* img := np_setitem_col img (ul_y node) (dr_y node + 1)
                  (ul_x node) black in
    let* img := np_setitem_row img (ul_y node) (ul_x node)
                  (dr_x node + 1) black in
    Ok (set_image qt img)
  else Ok (set_image qt img).

Fixpoint quadtree_to_image_recursive (qt : Quadtree) (node : Node)
    (draw_box : bool) {struct node} : res Quadtree :=
  let go qt o :=
    match o with
    | Some n => quadtree_to_image_recursive qt n draw_box
    | None => Raise AttributeError
    end in
  let* qt :=
    match color node with
    | Some c => draw_color qt node c draw_box
    | None => Ok qt
    end in
  match color node with
  | None =>
      let* qt := go qt (nw node) in
      let* qt := go qt (ne node) in
      let* qt := go qt (sw node) in
      go qt (se node)
  | Some _ => Ok qt
  end.

(** [quadtree_to_image]: the quadtree's [image] attribute is rebound to a
    fresh buffer of the same shape, which is painted and returned squeezed.
    [g] stands for the arbitrary initial contents of the fresh buffer. *)
Definition quadtree_to_image (g : nat → Q) (qt : Quadtree) (draw_box : bool)
    : res (Quadtree * flat_array) :=
  let qt := set_image qt
              (np_empty g (height (image qt)) (width (image qt))
                          (channels (image qt))) in
  let* qt := quadtree_to_image_recursive qt (root qt) draw_box in
  Ok (qt, np_squeeze (image qt)).

(** *** Counting *)

Fixpoint count_nodes_rec (n : Node) : Z :=
  let go o := match o with Some c => count_nodes_rec c | None => 0 end in
  1 + go (nw n) + go (ne n) + go (sw n) + go (se n).

Definition count_nodes (node : option Node) : Z :=
  match node with
  | None => 0
  | Some n => count_nodes_rec n
  end.

(** [N / 2] is true division: after the first call [N] is a float. *)
Fixpoint max_num_nodes (fuel : nat) (N : Q) : res Q :=
  match fuel with
  | O => OutOfFuel
  | S fuel =>
      let num_nodes := 0%Q in
      if Qeq_bool N 1 then Ok 1%Q
      else
        let num_nodes := (num_nodes + N * N)%Q in
        let* r := max_num_nodes fuel (N / 2)%Q in
        Ok (num_nodes + r)%Q
  end.

(** ** Concrete inputs *)

(** The 2x2 single-channel image [[10, 10], [10, 12]] and its quadtree. *)

Definition img2x2 : ndarray :=
  {| height := 2; width := 2; channels := None;
     pix := [[[10%Q]; [10%Q]]; [[10%Q]; [12%Q]]] |}.

Definition built2x2 : res Quadtree := build_quadtree 5 (Quadtree_init img2x2).

(** * Invariants and specification-level notions *)

(** Induction on nodes: the four child slots are nested under [option]. *)
Definition opt_all (P : Node → Prop) (o : option Node) : Prop :=
  match o with Some c => P c | None => True end.

Fixpoint Node_ind (P : Node → Prop)
    (step : ∀ col a b c d x0 y0 x1 y1 l,
        opt_all P a → opt_all P b → opt_all P c → opt_all P d →
        P (mkNode col a b c d x0 y0 x1 y1 l))
    (n : Node) {struct n} : P n :=
  match n with
  | mkNode col a b c d x0 y0 x1 y1 l =>
      let rec o : opt_all P o :=
        match o with Some k => Node_ind P step k | None => I end in
      step col a b c d x0 y0 x1 y1 l (rec a) (rec b) (rec c) (rec d)
  end.

(** The shape of a colour: a scalar, or a vector of [n] channels. *)
Inductive cshape : Type :=
  | SScalar
  | SVector (n : nat).

Definition has_shape (s : cshape) (c : Color) : Prop :=
  match s, c with
  | SScalar, Scalar _ => True
  | SVector n, Vector l => length l = n
  | _, _ => False
  end.

Definition shape_of (a : ndarray) : cshape :=
  match channels a with None => SScalar | Some c => SVector c end.

(** Every node either carries a colour of shape [s] and has no child, or has
    no colour and four children. *)
Inductive shaped (s : cshape) : Node → Prop :=
  | shaped_leaf n c :
      color n = Some c → has_shape s c →
      nw n = None → ne n = None → sw n = None → se n = None →
      shaped s n
  | shaped_inner n a b c d :
      color n = None →
      nw n = Some a → ne n = Some b → sw n = Some c → se n = Some d →
      shaped s a → shaped s b → shaped s c → shaped s d →
      shaped s n.

(** The cell at row [i], column [j] of a buffer. *)
Definition px (a : ndarray) (i j : nat) : option (list Q) :=
  pix a !! i ≫= (.!! j).

Definition color_ok (s : cshape) (n : Node) : Prop :=
  match color n with Some c => has_shape s c | None => True end.

(** Two buffers of the same shape. *)
Definition same_dims (a b : ndarray) : Prop :=
  height a = height b ∧ width a = width b ∧ channels a = channels b.

(** A write [new] on top of the previous content of a cell. *)
Definition overlay (new old : option (list Q)) : option (list Q) :=
  match new with Some p => (fun _ => p) <$> old | None => old end.

Definition orelse (o2 o1 : option (list Q)) : option (list Q) :=
  match o2 with Some p => Some p | None => o1 end.

Definition in_region (y0 y1 x0 x1 i j : nat) : bool :=
  ((y0 <=? i)%nat && (i <? y1)%nat) && ((x0 <=? j)%nat && (j <? x1)%nat).

(** The pixel written by an assignment of [v], for a 2-D buffer at offset [k]
    along its last axis, for a 3-D buffer on all channels. *)
Definition written (ch : option nat) (v : Color) (k : nat) : list Q :=
  match ch with
  | None => [bc v k]
  | Some c => map (bc v) (seq 0 c)
  end.

(** The cells a call of [draw_color] writes, and what it leaves in them, on a
    buffer of shape [(h, w)] or [(h, w, c)]. *)
Definition draw_paint (h w : nat) (ch : option nat) (db : bool) (n : Node)
    (c : Color) (i j : nat) : option (list Q) :=
  let y0 := py_clip h (ul_y n) in let y1 := py_clip h (dr_y n + 1) in
  let x0 := py_clip w (ul_x n) in let x1 := py_clip w (dr_x n + 1) in
  let blk := if in_region y0 y1 x0 x1 i j
             then Some (written ch c (j - x0)) else None in
  if db then
    let col := match py_index w (ul_x n) with
               | Ok jj => if in_region y0 y1 jj (S jj) i j
                          then Some (written ch black (i - y0)) else None
               | _ => None
               end in
    let row := match py_index h (ul_y n) with
               | Ok ii => if in_region ii (S ii) x0 x1 i j
                          then Some (written ch black (j - x0)) else None
               | _ => None
               end in
    orelse row (orelse col blk)
  else blk.

(** The cells a traversal writes: later writes win over earlier ones. *)
Fixpoint paint (h w : nat) (ch : option nat) (db : bool) (n : Node)
    (i j : nat) {struct n} : option (list Q) :=
  let go o := match o with Some k => paint h w ch db k i j | None => None end in
  match color n with
  | Some c => draw_paint h w ch db n c i j
  | None => orelse (go (se n)) (orelse (go (sw n)) (orelse (go (ne n)) (go (nw n))))
  end.

(** [painted f qt qt']: from [qt] to [qt'] the nodes and the shape of the
    buffer are unchanged, and the cells are overwritten as [f] says. *)
Record painted (f : nat → nat → option (list Q)) (qt qt' : Quadtree) : Prop := {
  painted_root : root qt' = root qt;
  painted_dims : same_dims (image qt') (image qt);
  painted_wf : wf_array (image qt) → wf_array (image qt');
  painted_px : ∀ i j, px (image qt') i j = overlay (f i j) (px (image qt) i j)
}.

(** The side [2^k] of the square at depth [k] above the pixels. *)
Definition side (k : nat) : Z := 2 ^ Z.of_nat k.

(** The tree built over the square of side [2^k] at [(x, y)]: a complete
    quadtree whose leaves are the pixels of [a]. *)
Inductive full (a : ndarray) : nat → Z → Z → Node → Prop :=
  | full_leaf x y n c :
      corners_of n = (x, y, x, y) →
      color n = Some c → np_getitem a y x = Ok c →
      nw n = None → ne n = None → sw n = None → se n = None →
      full a 0 x y n
  | full_inner k x y n ta tb tc td :
      corners_of n = (x, y, x + side (S k) - 1, y + side (S k) - 1) →
      color n = None →
      nw n = Some ta → ne n = Some tb → sw n = Some tc → se n = Some td →
      full a k x y ta → full a k (x + side k) y tb →
      full a k x (y + side k) tc → full a k (x + side k) (y + side k) td →
      full a (S k) x y n.

(** [tiled P k x y n]: the coloured nodes below [n] are childless and tile
    the square of side [2^k] at [(x, y)]; every other node has no colour and
    four children, one per quadrant.  [P] is what is known of each coloured
    node. *)
Inductive tiled (P : nat → Z → Z → Color → Prop) : nat → Z → Z → Node → Prop :=
  | tiled_leaf k x y n c :
      corners_of n = (x, y, x + side k - 1, y + side k - 1) →
      color n = Some c → P k x y c →
      nw n = None → ne n = None → sw n = None → se n = None →
      tiled P k x y n
  | tiled_inner k x y n ta tb tc td :
      corners_of n = (x, y, x + side (S k) - 1, y + side (S k) - 1) →
      color n = None →
      nw n = Some ta → ne n = Some tb → sw n = Some tc → se n = Some td →
      tiled P k x y ta → tiled P k (x + side k) y tb →
      tiled P k x (y + side k) tc → tiled P k (x + side k) (y + side k) td →
      tiled P (S k) x y n.

(** What is known of a coloured node: after build it is a pixel of the
    image; after compression only the shape of its colour. *)
Definition pixel_leaf (a : ndarray) (k : nat) (x y : Z) (c : Color) : Prop :=
  k = O ∧ np_getitem a y x = Ok c.

Definition any_leaf (s : cshape) (k : nat) (x y : Z) (c : Color) : Prop :=
  has_shape s c.

(** Cell [(i, j)] lies in the square of side [2^k] at [(x, y)]; that square
    lies in a buffer of [h] rows and [w] columns. *)
Definition in_rect (k : nat) (x y : Z) (i j : nat) : Prop :=
  (x ≤ Z.of_nat j < x + side k) ∧ (y ≤ Z.of_nat i < y + side k).

Definition fits (h w : nat) (k : nat) (x y : Z) : Prop :=
  0 ≤ x ∧ x + side k ≤ Z.of_nat w ∧ 0 ≤ y ∧ y + side k ≤ Z.of_nat h.

(** A valid input: a well-formed square image of side [2^k]. *)
Definition valid_image (a : ndarray) (k : nat) : Prop :=
  wf_array a ∧ Z.of_nat (height a) = side k ∧ Z.of_nat (width a) = side k.

(** The quadtrees the public operations produce: built from an image, then
    compressed and rendered any number of times. *)
Inductive reachable : Quadtree → Prop :=
  | reach_build img fuel qt :
      wf_array img →
      build_quadtree fuel (Quadtree_init img) = Ok qt →
      reachable qt
  | reach_compress qt th qt' :
      reachable qt → compress_quadtree qt th = Ok qt' → reachable qt'
  | reach_render g qt db qt' out :
      reachable qt → quadtree_to_image g qt db = Ok (qt', out) →
      reachable qt'.

Definition qt2x2 : Quadtree :=
  match built2x2 with Ok q => q | _ => Quadtree_init img2x2 end.

(** The nodes below (and including) a node. *)
Inductive subnode : Node → Node → Prop :=
  | sub_here n : subnode n n
  | sub_nw n c m : nw n = Some c → subnode c m → subnode n m
  | sub_ne n c m : ne n = Some c → subnode c m → subnode n m
  | sub_sw n c m : sw n = Some c → subnode c m → subnode n m
  | sub_se n c m : se n = Some c → subnode c m → subnode n m.

(** Colour present iff no child slot is filled; colour absent iff all four
    child slots are filled. *)
Definition four_way (n : Node) : Prop :=
  (is_Some (color n) ↔
     nw n = None ∧ ne n = None ∧ sw n = None ∧ se n = None) ∧
  (color n = None ↔
     is_Some (nw n) ∧ is_Some (ne n) ∧ is_Some (sw n) ∧ is_Some (se n)).

(** Further concrete inputs: a 3x3 image, a 2x2 image with an explicit
    channel axis of length 1, a uniform 4x4 image, and a one-pixel coloured
    node. *)
Definition img3x3 : ndarray :=
  {| height := 3; width := 3; channels := None;
     pix := [[[1%Q]; [2%Q]; [3%Q]];
             [[4%Q]; [5%Q]; [6%Q]];
             [[7%Q]; [8%Q]; [9%Q]]] |}.

Definition img2x2x1 : ndarray :=
  {| height := 2; width := 2; channels := Some 1%nat;
     pix := [[[10%Q]; [10%Q]]; [[10%Q]; [12%Q]]] |}.

Definition img4x4_uniform : ndarray :=
  {| height := 4; width := 4; channels := None;
     pix := replicate 4 (replicate 4 [7%Q]) |}.

Definition leaf00 : Node :=
  {| color := Some (Scalar 10); nw := None; ne := None; sw := None; se := None;
     ul_x := 0; ul_y := 0; dr_x := 0; dr_y := 0; level := 1 |}.







(** ** Notions used for the further properties *)



(** The rectangle of a node lies inside the image and is not inverted by
    more than the empty rectangle. *)
Definition in_image (a : ndarray) (n : Node) : Prop :=
  0 ≤ ul_x n ∧ ul_x n - 1 ≤ dr_x n ∧ dr_x n < Z.of_nat (width a) ∧
  0 ≤ ul_y n ∧ ul_y n - 1 ≤ dr_y n ∧ dr_y n < Z.of_nat (height a).

(** [at_depth d n m]: [m] is [d] child links below [n]. *)
Inductive at_depth : nat → Node → Node → Prop :=
  | depth_here n : at_depth 0 n n
  | depth_nw d n c m : nw n = Some c → at_depth d c m → at_depth (S d) n m
  | depth_ne d n c m : ne n = Some c → at_depth d c m → at_depth (S d) n m
  | depth_sw d n c m : sw n = Some c → at_depth d c m → at_depth (S d) n m
  | depth_se d n c m : se n = Some c → at_depth d c m → at_depth (S d) n m.

(** The node has level [l], its children level [l + 1], and so on. *)
Fixpoint levelled (l : Z) (n : Node) {struct n} : Prop :=
  let go o := match o with Some c => levelled (l + 1) c | None => True end in
  level n = l ∧ go (nw n) ∧ go (ne n) ∧ go (sw n) ∧ go (se n).









(** Along one axis, the quadrant that [compute_image_corners] gives for the
    interval [u .. d] and the shift [s]: its first and last coordinate, with
    [int] truncating toward zero. *)
Definition child_lo (u d s : Z) : Z := Z.quot (2 * u + s * (d - u + 1)) 2.

Definition child_hi (u d s : Z) : Z :=
  Z.quot (2 * child_lo u d s + (d - u + 1) - 2) 2.

(** An interval that reaches length 1 after exactly [k] halvings, or is the
    single coordinate 0, which the truncation maps to itself. *)
Definition term_axis (k : nat) (u d : Z) : Prop :=
  0 ≤ u ∧ (side k ≤ d - u + 1 < side (S k) ∨ (u = 0 ∧ d = 0)).

(** A node whose rectangle is too narrow for its height, or too flat for its
    width: one side is below a power of two that the other side reaches, and
    the short side is not the single coordinate 0. *)
Definition narrow (u d v e : Z) : Prop :=
  0 ≤ u ∧ 0 ≤ v ∧ 1 ≤ d - u + 1 ∧ (1 ≤ u ∨ 2 ≤ d - u + 1) ∧
  ∃ k, d - u + 1 < side k ∧ side k ≤ e - v + 1.

(** The shapes [(height, width)] on which build returns. *)
Definition returns_on (h w : Z) : Prop :=
  1 ≤ h ∧ 1 ≤ w ∧
  (w = 1 ∨ h = 1 ∨
   ∃ k, side k ≤ w < side (S k) ∧ side k ≤ h < side (S k)).

(** A 3x1 image (three rows, one column) and a 2x4 image. *)
Definition img3x1 : ndarray :=
  {| height := 3; width := 1; channels := None;
     pix := [[[1%Q]]; [[2%Q]]; [[3%Q]]] |}.

(** * Proofs *)

(** ** Generic facts *)

Lemma bind_Ok {A B : Type} (m : res A) (k : A → res B) (b : B) :
  bind m k = Ok b → ∃ a, m = Ok a ∧ k a = Ok b.
Proof. destruct m; simpl; intros H; try discriminate. eauto. Qed.

Ltac inv_bind H :=
  let a := fresh "r" in
  let E := fresh "E" in
  apply bind_Ok in H; destruct H as (a & E & H).

Lemma Qltb_lt (a b : Q) : Qltb a b = true ↔ (a < b)%Q.
Proof.
  unfold Qltb. rewrite negb_true_iff. split.
  - intros H. apply Qnot_le_lt. intros Hle.
    apply Qle_bool_iff in Hle. congruence.
  - intros H. destruct (Qle_bool b a) eqn:E; [|done].
    apply Qle_bool_iff in E. exfalso. eapply Qlt_not_le; eauto.
Qed.

Lemma py_int_inject (q : Q) (z : Z) : (q == inject_Z z)%Q → py_int q = z.
Proof.
  unfold Qeq, py_int. simpl. intros H. rewrite Z.mul_1_r in H. rewrite H.
  apply Z.quot_mul. lia.
Qed.

(** ** Geometry *)

(** C8. [compute_image_corners] applied to a tag that is none of ['nw'],
    ['ne'], ['sw'], ['se'] returns no rectangle: it fails with an error (the
    unbound-local error raised at the first use of the shift). *)
Theorem compute_image_corners_bad_tag (node : Node) (child : string) :
  child ≠ "nw"%string → child ≠ "ne"%string →
  child ≠ "sw"%string → child ≠ "se"%string →
  compute_image_corners node child = Raise UnboundLocalError.
Proof.
  intros H1 H2 H3 H4. unfold compute_image_corners, quadrant_shift.
  apply String.eqb_neq in H1, H2, H3, H4.
  by rewrite H1, H2, H3, H4.
Qed.

Lemma compute_image_corners_bad_tag_witness :
  compute_image_corners (Node_init None (0, 0, 3, 3) 0) "north"
  = Raise UnboundLocalError.
Proof. by apply compute_image_corners_bad_tag. Defined.

(** ** Idempotence of the compression pass *)

Lemma compress_unfold qt node th :
  compress_quadtree_recursive qt node th =
  match nw node, ne node, sw node, se node with
  | None, None, None, None => Ok node
  | a, b, c, d =>
      let go o :=
        match o with
        | Some n => compress_quadtree_recursive qt n th
        | None => Raise AttributeError
        end in
      let* a' := go a in
      let* b' := go b in
      let* c' := go c in
      let* d' := go d in
      let node := set_children node (Some a') (Some b') (Some c') (Some d') in
      let* col := combine_colors node th in
      let node := set_color node col in
      match color node with
      | Some _ => Ok (set_children node None None None None)
      | None => Ok node
      end
  end.
Proof. by destruct node. Qed.

(** What a successful pass over a node with children looks like. *)
Lemma compress_inner qt node th n' :
  ¬ (nw node = None ∧ ne node = None ∧ sw node = None ∧ se node = None) →
  compress_quadtree_recursive qt node th = Ok n' →
  ∃ a b c d a' b' c' d' col,
    nw node = Some a ∧ ne node = Some b ∧ sw node = Some c ∧ se node = Some d ∧
    compress_quadtree_recursive qt a th = Ok a' ∧
    compress_quadtree_recursive qt b th = Ok b' ∧
    compress_quadtree_recursive qt c th = Ok c' ∧
    compress_quadtree_recursive qt d th = Ok d' ∧
    combine_colors
      (set_children node (Some a') (Some b') (Some c') (Some d')) th = Ok col ∧
    n' = match col with
         | Some _ => set_children (set_color node col) None None None None
         | None => set_color
                     (set_children node (Some a') (Some b') (Some c') (Some d'))
                     None
         end.
Proof.
  intros Hne H. rewrite compress_unfold in H.
  assert (Hgo :
    (let go o :=
        match o with
        | Some n => compress_quadtree_recursive qt n th
        | None => Raise AttributeError
        end in
      let* a' := go (nw node) in
      let* b' := go (ne node) in
      let* c' := go (sw node) in
      let* d' := go (se node) in
      let node := set_children node (Some a') (Some b') (Some c') (Some d') in
      let* col := combine_colors node th in
      let node := set_color node col in
      match color node with
      | Some _ => Ok (set_children node None None None None)
      | None => Ok node
      end) = Ok n').
  { destruct (nw node), (ne node), (sw node), (se node); try exact H.
    exfalso. by apply Hne. }
  clear H. cbv zeta in Hgo.
  inv_bind Hgo. inv_bind Hgo. inv_bind Hgo. inv_bind Hgo. inv_bind Hgo.
  destruct (nw node) as [a|]; [|discriminate].
  destruct (ne node) as [b|]; [|discriminate].
  destruct (sw node) as [c|]; [|discriminate].
  destruct (se node) as [d|]; [|discriminate].
  exists a, b, c, d, r, r0, r1, r2, r3.
  repeat split; try done.
  destruct r3; simpl in Hgo; by inversion Hgo.
Qed.

Lemma compress_leaf qt node th :
  nw node = None → ne node = None → sw node = None → se node = None →
  compress_quadtree_recursive qt node th = Ok node.
Proof. intros. rewrite compress_unfold. by rewrite H, H0, H1, H2. Qed.

Lemma compress_idempotent_gen qt th (n : Node) :
  ∀ n', compress_quadtree_recursive qt n th = Ok n' →
        compress_quadtree_recursive qt n' th = Ok n'.
Proof.
  induction n as [col a b c d x0 y0 x1 y1 l IHa IHb IHc IHd] using Node_ind.
  intros n' H.
  destruct (decide (a = None ∧ b = None ∧ c = None ∧ d = None)) as [Hl|Hl].
  - destruct Hl as (-> & -> & -> & ->). rewrite compress_leaf in H by done.
    inversion H; subst. by apply compress_leaf.
  - apply compress_inner in H; [|exact Hl].
    destruct H as (ka & kb & kc & kd & a' & b' & c' & d' & cl & Ha & Hb & Hc
                   & Hd & Ea & Eb & Ec & Ed & Hcol & ->).
    simpl in Ha, Hb, Hc, Hd. subst a b c d. simpl in *.
    destruct cl as [cv|].
    + by apply compress_leaf.
    + rewrite compress_unfold. simpl.
      rewrite (IHa _ Ea), (IHb _ Eb), (IHc _ Ec), (IHd _ Ed). simpl.
      unfold set_children in Hcol. simpl in Hcol.
      unfold set_children, set_color. simpl.
      change (combine_colors _ th) with
        (combine_colors
           {| color := col; nw := Some a'; ne := Some b'; sw := Some c';
              se := Some d'; ul_x := x0; ul_y := y0; dr_x := x1; dr_y := y1;
              level := l |} th) in Hcol.
      assert (Hcc : ∀ col1 col2,
        combine_colors
           {| color := col1; nw := Some a'; ne := Some b'; sw := Some c';
              se := Some d'; ul_x := x0; ul_y := y0; dr_x := x1; dr_y := y1;
              level := l |} th =
        combine_colors
           {| color := col2; nw := Some a'; ne := Some b'; sw := Some c';
              se := Some d'; ul_x := x0; ul_y := y0; dr_x := x1; dr_y := y1;
              level := l |} th) by done.
      rewrite (Hcc None col), Hcol. done.
Qed.

(** ** Colour shapes and the all-or-nothing invariant *)

Lemma px_length a i j p :
  wf_array a → px a i j = Some p → length p = chan_len a.
Proof.
  intros [_ Hwf] H. unfold px in H.
  destruct (pix a !! i) as [row|] eqn:Er; simpl in H; [|done].
  rewrite Forall_forall in Hwf.
  apply list_elem_of_lookup_2, Hwf in Er.
  destruct Er as [_ Hrow]. rewrite Forall_forall in Hrow.
  apply list_elem_of_lookup_2, Hrow in H. done.
Qed.

Lemma px_is_Some a i j :
  wf_array a → (i < height a)%nat → (j < width a)%nat → is_Some (px a i j).
Proof.
  intros [Hh Hwf] Hi Hj. unfold px.
  destruct (lookup_lt_is_Some_2 (pix a) i) as [row Er]; [lia|].
  rewrite Er. simpl. apply lookup_lt_is_Some_2.
  rewrite Forall_forall in Hwf.
  apply list_elem_of_lookup_2, Hwf in Er. lia.
Qed.

Lemma np_getitem_shape a y x c :
  wf_array a → np_getitem a y x = Ok c → has_shape (shape_of a) c.
Proof.
  intros Hwf H. unfold np_getitem in H.
  inv_bind H. inv_bind H.
  destruct (pix a !! r ≫= (.!! r0)) as [p|] eqn:Ep; [|done].
  apply (px_length a r r0 p Hwf) in Ep.
  unfold shape_of, chan_len in *.
  destruct (channels a); inversion H; subst; simpl; done.
Qed.

Lemma np_stack_shaped s c1 c2 c3 c4 :
  has_shape s c1 → has_shape s c2 → has_shape s c3 → has_shape s c4 →
  ∃ st, np_stack c1 c2 c3 c4 = Ok st ∧ has_shape s (np_mean_axis0 st).
Proof.
  destruct s, c1, c2, c3, c4; simpl; try done.
  - intros. eexists. split; [done|]. done.
  - intros H1 H2 H3 H4. rewrite H1, H2, H3, H4, Nat.eqb_refl. simpl.
    eexists. split; [done|]. simpl. by rewrite length_map, length_seq.
Qed.

Lemma shaped_color_ok s n : shaped s n → color_ok s n.
Proof. unfold color_ok. destruct 1 as [n c Hc|n a b c d Hc]; by rewrite Hc. Qed.

Lemma combine_colors_shaped s node th a b c d :
  nw node = Some a → ne node = Some b → sw node = Some c → se node = Some d →
  color_ok s a → color_ok s b → color_ok s c → color_ok s d →
  ∃ r, combine_colors node th = Ok r ∧
       match r with Some m => has_shape s m | None => True end.
Proof.
  unfold color_ok, combine_colors. intros -> -> -> -> Ha Hb Hc Hd. simpl.
  destruct (color a) as [c1|]; [|by exists None].
  destruct (color b) as [c2|]; [|by exists None].
  destruct (color c) as [c3|]; [|by exists None].
  destruct (color d) as [c4|]; [|by exists None].
  destruct (np_stack_shaped s c1 c2 c3 c4) as (st & -> & Hst); try done.
  simpl. destruct (Qltb _ th); eexists; (split; [done|]); done.
Qed.

Lemma compress_shaped s qt th n :
  shaped s n →
  ∃ n', compress_quadtree_recursive qt n th = Ok n' ∧ shaped s n' ∧
        corners_of n' = corners_of n ∧ level n' = level n.
Proof.
  induction 1 as [n c Hc Hs H1 H2 H3 H4
                 |n a b c d Hc Ha Hb Hcc Hd Sa IHa Sb IHb Sc IHc Sd IHd].
  - exists n. split; [by apply compress_leaf|]. split; [|done].
    by eapply shaped_leaf.
  - destruct IHa as (a' & Ea & Sa' & _). destruct IHb as (b' & Eb & Sb' & _).
    destruct IHc as (c' & Ec & Sc' & _). destruct IHd as (d' & Ed & Sd' & _).
    rewrite compress_unfold, Ha, Hb, Hcc, Hd. cbv beta iota zeta.
    rewrite Ea, Eb, Ec, Ed. simpl.
    destruct (combine_colors_shaped s
                (set_children n (Some a') (Some b') (Some c') (Some d')) th
                a' b' c' d') as (r & -> & Hr);
      try done; try by apply shaped_color_ok.
    simpl. destruct r as [m|].
    + eexists. split; [done|]. split; [|done]. by eapply shaped_leaf.
    + eexists. split; [done|]. split; [|done]. by eapply shaped_inner.
Qed.

Lemma build_shaped qt fuel :
  wf_array (image qt) →
  ∀ node t,
    color node = None → nw node = None → ne node = None →
    sw node = None → se node = None →
    build_quadtree_recursive fuel qt node = Ok t →
    shaped (shape_of (image qt)) t.
Proof.
  intros Hwf. induction fuel as [|fuel IH]; intros node t Hc H1 H2 H3 H4 H;
    [done|].
  simpl in H.
  destruct ((dr_x node - ul_x node =? 0) && (dr_y node - ul_y node =? 0)).
  - inv_bind H. inversion H; subst.
    eapply shaped_leaf; simpl; try done.
    by eapply np_getitem_shape.
  - inv_bind H. inv_bind H. inv_bind H. inv_bind H.
    inversion H; subst.
    eapply shaped_inner; simpl; try done;
      (eapply IH; [| | | | |eassumption]); done.
Qed.

(** ** What rendering writes *)

Lemma overlay_overlay o2 o1 old :
  overlay o2 (overlay o1 old) = overlay (orelse o2 o1) old.
Proof. destruct o2, o1, old; done. Qed.

Lemma orelse_assoc a b c : orelse (orelse a b) c = orelse a (orelse b c).
Proof. by destruct a. Qed.

Lemma orelse_None_r a : orelse a None = a.
Proof. by destruct a. Qed.

Lemma set_region_px a y0 y1 x0 x1 f i j :
  px (set_region a y0 y1 x0 x1 f) i j =
  overlay (if in_region y0 y1 x0 x1 i j
           then Some (f (i - y0) (j - x0))%nat else None) (px a i j).
Proof.
  unfold px, set_region, in_region. simpl. rewrite list_lookup_imap.
  destruct (pix a !! i) as [row|]; simpl.
  - destruct ((y0 <=? i)%nat && (i <? y1)%nat); simpl; [|done].
    rewrite list_lookup_imap. destruct (row !! j); simpl; [|by case_match].
    by destruct ((x0 <=? j)%nat && (j <? x1)%nat).
  - by case_match.
Qed.

Lemma set_region_dims a y0 y1 x0 x1 f :
  same_dims (set_region a y0 y1 x0 x1 f) a.
Proof. done. Qed.

Lemma set_region_wf a y0 y1 x0 x1 f :
  (∀ i j, length (f i j) = chan_len a) →
  wf_array a → wf_array (set_region a y0 y1 x0 x1 f).
Proof.
  intros Hf [Hh Hwf]. split; simpl; [by rewrite length_imap|].
  rewrite Forall_lookup in Hwf. apply Forall_lookup. intros i row' Hi.
  rewrite list_lookup_imap in Hi.
  destruct (pix a !! i) as [row|] eqn:Er; simpl in Hi; [|done].
  destruct (Hwf i row Er) as [Hlen Hrow].
  inversion Hi; subst; clear Hi.
  unfold chan_len in *. simpl.
  destruct ((y0 <=? i)%nat && (i <? y1)%nat); [|done].
  split; [by rewrite length_imap|].
  rewrite Forall_lookup in Hrow. apply Forall_lookup. intros j p Hj.
  rewrite list_lookup_imap in Hj.
  destruct (row !! j) as [q|] eqn:Eq; simpl in Hj; [|done].
  inversion Hj; subst. destruct ((x0 <=? j)%nat && (j <? x1)%nat); eauto.
Qed.

Lemma written_length ch v k :
  length (written ch v k) = match ch with None => 1%nat | Some c => c end.
Proof. destruct ch; simpl; [by rewrite length_map, length_seq|done]. Qed.

(** The three assignments of [draw_color], when they succeed. *)
Lemma np_setitem_block_spec a ya yb xa xb v a' :
  np_setitem_block a ya yb xa xb v = Ok a' →
  same_dims a' a ∧ (wf_array a → wf_array a') ∧
  ∀ i j, px a' i j =
    overlay (if in_region (py_clip (height a) ya) (py_clip (height a) yb)
                          (py_clip (width a) xa) (py_clip (width a) xb) i j
             then Some (written (channels a) v (j - py_clip (width a) xa))
             else None) (px a i j).
Proof.
  unfold np_setitem_block. intros H.
  destruct (channels a) as [c|] eqn:Ec;
    match type of H with (if ?b then _ else _) = _ => destruct b end;
    inversion H; subst; clear H;
    (split; [done|]); (split; [apply set_region_wf; intros;
      unfold chan_len; rewrite Ec; simpl;
      by rewrite ?length_map, ?length_seq|]);
    intros i j; rewrite set_region_px; done.
Qed.

Lemma np_setitem_col_spec a ya yb x v a' :
  np_setitem_col a ya yb x v = Ok a' →
  ∃ jj, py_index (width a) x = Ok jj ∧
  same_dims a' a ∧ (wf_array a → wf_array a') ∧
  ∀ i j, px a' i j =
    overlay (if in_region (py_clip (height a) ya) (py_clip (height a) yb)
                          jj (S jj) i j
             then Some (written (channels a) v (i - py_clip (height a) ya))
             else None) (px a i j).
Proof.
  unfold np_setitem_col. intros H. inv_bind H. exists r. split; [done|].
  destruct (channels a) as [c|] eqn:Ec;
    match type of H with (if ?b then _ else _) = _ => destruct b end;
    inversion H; subst; clear H;
    (split; [done|]); (split; [apply set_region_wf; intros;
      unfold chan_len; rewrite Ec; simpl;
      by rewrite ?length_map, ?length_seq|]);
    intros i j; rewrite set_region_px; done.
Qed.

Lemma np_setitem_row_spec a y xa xb v a' :
  np_setitem_row a y xa xb v = Ok a' →
  ∃ ii, py_index (height a) y = Ok ii ∧
  same_dims a' a ∧ (wf_array a → wf_array a') ∧
  ∀ i j, px a' i j =
    overlay (if in_region ii (S ii)
                          (py_clip (width a) xa) (py_clip (width a) xb) i j
             then Some (written (channels a) v (j - py_clip (width a) xa))
             else None) (px a i j).
Proof.
  unfold np_setitem_row. intros H. inv_bind H. exists r. split; [done|].
  destruct (channels a) as [c|] eqn:Ec;
    match type of H with (if ?b then _ else _) = _ => destruct b end;
    inversion H; subst; clear H;
    (split; [done|]); (split; [apply set_region_wf; intros;
      unfold chan_len; rewrite Ec; simpl;
      by rewrite ?length_map, ?length_seq|]);
    intros i j; rewrite set_region_px; done.
Qed.

Lemma painted_nothing qt : painted (fun _ _ => None) qt qt.
Proof. by split. Qed.

Lemma painted_trans f1 f2 qt1 qt2 qt3 :
  painted f1 qt1 qt2 → painted f2 qt2 qt3 →
  painted (fun i j => orelse (f2 i j) (f1 i j)) qt1 qt3.
Proof.
  intros [R1 D1 W1 P1] [R2 D2 W2 P2]. split.
  - congruence.
  - unfold same_dims in *. destruct_and?. repeat split; congruence.
  - auto.
  - intros i j. by rewrite P2, P1, overlay_overlay.
Qed.

Lemma draw_color_spec qt n db c qt' :
  draw_color qt n c db = Ok qt' →
  painted (draw_paint (height (image qt)) (width (image qt))
                      (channels (image qt)) db n c) qt qt'.
Proof.
  intros H. unfold draw_color in H.
  inv_bind H. apply np_setitem_block_spec in E.
  destruct E as ((Dh & Dw & Dc) & W1 & P1).
  destruct db.
  - inv_bind H. inv_bind H. inversion H; subst; clear H.
    apply np_setitem_col_spec in E. destruct E as (jj & Ej & (Eh & Ew & Ec) & W2 & P2).
    apply np_setitem_row_spec in E0.
    destruct E0 as (ii & Ei & (Fh & Fw & Fc) & W3 & P3).
    split; simpl.
    + done.
    + unfold same_dims. repeat split; congruence.
    + auto.
    + intros i j. rewrite P3, P2, P1, !overlay_overlay.
      unfold draw_paint.
      rewrite Eh, Dh in Ei. rewrite Dw in Ej.
      rewrite ?Eh, ?Ew, ?Ec, ?Dh, ?Dw, ?Dc.
      rewrite Ej, Ei. by rewrite orelse_assoc.
  - inversion H; subst; clear H. split; simpl; try done.
Qed.

Lemma render_unfold qt node db :
  quadtree_to_image_recursive qt node db =
  let go qt o :=
    match o with
    | Some n => quadtree_to_image_recursive qt n db
    | None => Raise AttributeError
    end in
  let* qt :=
    match color node with
    | Some c => draw_color qt node c db
    | None => Ok qt
    end in
  match color node with
  | None =>
      let* qt := go qt (nw node) in
      let* qt := go qt (ne node) in
      let* qt := go qt (sw node) in
      go qt (se node)
  | Some _ => Ok qt
  end.
Proof. by destruct node. Qed.

Lemma paint_unfold h w ch db n i j :
  paint h w ch db n i j =
  let go o := match o with Some k => paint h w ch db k i j | None => None end in
  match color n with
  | Some c => draw_paint h w ch db n c i j
  | None => orelse (go (se n)) (orelse (go (sw n)) (orelse (go (ne n)) (go (nw n))))
  end.
Proof. by destruct n. Qed.

(** Whenever the traversal returns, it has left the nodes alone and has
    written exactly the cells described by [paint]. *)
Lemma render_spec db (n : Node) :
  ∀ qt qt', quadtree_to_image_recursive qt n db = Ok qt' →
  painted (paint (height (image qt)) (width (image qt)) (channels (image qt))
                 db n) qt qt'.
Proof.
  induction n as [col a b c d x0 y0 x1 y1 l IHa IHb IHc IHd] using Node_ind.
  intros qt qt' H. rewrite render_unfold in H. simpl in H.
  destruct col as [cv|].
  - inv_bind H. inversion H; subst; clear H.
    apply draw_color_spec in E.
    destruct E as [R D W P]. split; try done.
  - simpl in H. inv_bind H. inv_bind H. inv_bind H.
    destruct a as [ka|]; [|done]. destruct b as [kb|]; [|done].
    destruct c as [kc|]; [|done]. destruct d as [kd|]; [|done].
    simpl in *.
    apply IHa in E. apply IHb in E0. apply IHc in E1. apply IHd in H.
    pose proof (painted_dims _ _ _ E) as (h1 & w1 & c1).
    pose proof (painted_dims _ _ _ E0) as (h2 & w2 & c2).
    pose proof (painted_dims _ _ _ E1) as (h3 & w3 & c3).
    rewrite h3, w3, c3, h2, w2, c2, h1, w1, c1 in H.
    rewrite h2, w2, c2, h1, w1, c1 in E1.
    rewrite h1, w1, c1 in E0.
    pose proof (painted_trans _ _ _ _ _
                  (painted_trans _ _ _ _ _ (painted_trans _ _ _ _ _ E E0) E1) H)
      as [R D W P].
    split; try done.
Qed.

(** ** Building a power-of-two square *)

Lemma side_pos k : 0 < side k.
Proof. unfold side. lia. Qed.

Lemma side_S k : side (S k) = 2 * side k.
Proof. unfold side. rewrite Nat2Z.inj_succ, Z.pow_succ_r; lia. Qed.

Lemma side_0 : side 0 = 1.
Proof. done. Qed.

(** On a rectangle of even width and height the four quadrants are the four
    halves. *)
Lemma compute_image_corners_even node child sx sy mx my :
  quadrant_shift child = Ok (sx, sy) →
  dr_x node - ul_x node + 1 = 2 * mx →
  dr_y node - ul_y node + 1 = 2 * my →
  compute_image_corners node child =
  Ok (ul_x node + sx * mx, ul_y node + sy * my,
      ul_x node + sx * mx + mx - 1, ul_y node + sy * my + my - 1).
Proof.
  intros Hs Hx Hy. unfold compute_image_corners. rewrite Hs, Hx, Hy. simpl.
  assert (Hh : ∀ m, (inject_Z (2 * m) / 2 == inject_Z m)%Q).
  { intros m. rewrite inject_Z_mult. field. }
  assert (E1 : py_int (inject_Z (ul_x node) + inject_Z sx * (inject_Z (2 * mx) / 2))
               = ul_x node + sx * mx).
  { apply py_int_inject. rewrite Hh, inject_Z_plus, inject_Z_mult. reflexivity. }
  assert (E2 : py_int (inject_Z (ul_y node) + inject_Z sy * (inject_Z (2 * my) / 2))
               = ul_y node + sy * my).
  { apply py_int_inject. rewrite Hh, inject_Z_plus, inject_Z_mult. reflexivity. }
  rewrite E1, E2.
  assert (E3 : ∀ u m, py_int (inject_Z u + inject_Z (2 * m) / 2 - 1) = u + m - 1).
  { intros u m. apply py_int_inject. rewrite Hh.
    unfold Z.sub, Qminus. rewrite !inject_Z_plus. reflexivity. }
  by rewrite !E3.
Qed.

Lemma py_index_inb n z :
  0 ≤ z < Z.of_nat n → py_index n z = Ok (Z.to_nat z).
Proof.
  intros H. unfold py_index.
  destruct (z <? 0) eqn:E; [lia|].
  destruct (0 <=? z) eqn:E1; [|lia]. destruct (z <? Z.of_nat n) eqn:E2; [|lia].
  done.
Qed.

Lemma py_clip_inb n z :
  0 ≤ z ≤ Z.of_nat n → py_clip n z = Z.to_nat z.
Proof.
  intros H. unfold py_clip. destruct (z <? 0) eqn:E; [lia|]. f_equal. lia.
Qed.

Lemma np_getitem_inb a y x :
  wf_array a → 0 ≤ y < Z.of_nat (height a) → 0 ≤ x < Z.of_nat (width a) →
  ∃ c, np_getitem a y x = Ok c.
Proof.
  intros Hwf Hy Hx. unfold np_getitem.
  rewrite py_index_inb, py_index_inb by done. simpl.
  destruct (px_is_Some a (Z.to_nat y) (Z.to_nat x) Hwf) as [p Hp]; [lia..|].
  unfold px in Hp. rewrite Hp. destruct (channels a); eauto.
Qed.

Lemma build_full qt (k : nat) :
  wf_array (image qt) →
  ∀ fuel x y l,
    (k < fuel)%nat →
    0 ≤ x → x + side k ≤ Z.of_nat (width (image qt)) →
    0 ≤ y → y + side k ≤ Z.of_nat (height (image qt)) →
    ∃ t, build_quadtree_recursive fuel qt
           (Node_init None (x, y, x + side k - 1, y + side k - 1) l) = Ok t ∧
         full (image qt) k x y t.
Proof.
  intros Hwf. induction k as [|k IH]; intros fuel x y l Hf Hx0 Hx1 Hy0 Hy1.
  - destruct fuel as [|fuel]; [lia|]. rewrite side_0 in *. simpl.
    replace (x + 1 - 1 - x =? 0) with true by lia.
    replace (y + 1 - 1 - y =? 0) with true by lia. simpl.
    destruct (np_getitem_inb (image qt) y x Hwf) as [c Hc]; [lia..|].
    replace (y + 1 - 1) with y by lia. replace (x + 1 - 1) with x by lia.
    rewrite Hc. simpl. eexists. split; [done|].
    eapply full_leaf; simpl; done.
  - destruct fuel as [|fuel]; [lia|].
    pose proof (side_pos k) as Hp. pose proof (side_S k) as HS.
    cbn [build_quadtree_recursive Node_init ul_x ul_y dr_x dr_y].
    replace ((x + side (S k) - 1 - x =? 0) && (y + side (S k) - 1 - y =? 0))
      with false by (symmetry; apply andb_false_iff; left; lia).
    assert (Hc : ∀ nd child sx sy,
      corners_of nd = (x, y, x + side (S k) - 1, y + side (S k) - 1) →
      quadrant_shift child = Ok (sx, sy) →
      compute_image_corners nd child =
      Ok (x + sx * side k, y + sy * side k,
          x + sx * side k + side k - 1, y + sy * side k + side k - 1)).
    { intros nd child sx sy Hcor Hs. unfold corners_of in Hcor. simpl in Hcor.
      inversion Hcor as [[Hux Huy Hdx Hdy]].
      rewrite (compute_image_corners_even nd child sx sy (side k) (side k));
        try done; try lia. }
    rewrite (Hc _ "nw"%string 0 0) by done. cbn [bind].
    destruct (IH fuel x y (l + 1)) as (ta & Ea & Fa); try lia.
    replace (x + 0 * side k) with x by lia.
    replace (y + 0 * side k) with y by lia.
    unfold Node_init in Ea. cbn [Node_init level]. rewrite Ea. cbn [bind].
    rewrite (Hc _ "ne"%string 1 0) by done. cbn [bind].
    destruct (IH fuel (x + side k) y (l + 1)) as (tb & Eb & Fb); try lia.
    replace (x + 1 * side k) with (x + side k) by lia.
    replace (y + 0 * side k) with y by lia.
    unfold Node_init in Eb. cbn [Node_init level set_nw set_ne set_sw set_children].
    rewrite Eb. cbn [bind].
    rewrite (Hc _ "sw"%string 0 1) by done. cbn [bind].
    destruct (IH fuel x (y + side k) (l + 1)) as (tc & Ec & Fc); try lia.
    replace (x + 0 * side k) with x by lia.
    replace (y + 1 * side k) with (y + side k) by lia.
    unfold Node_init in Ec. cbn [Node_init level set_nw set_ne set_sw set_children].
    rewrite Ec. cbn [bind].
    rewrite (Hc _ "se"%string 1 1) by done. cbn [bind].
    destruct (IH fuel (x + side k) (y + side k) (l + 1)) as (td & Ed & Fd);
      try lia.
    replace (x + 1 * side k) with (x + side k) by lia.
    replace (y + 1 * side k) with (y + side k) by lia.
    unfold Node_init in Ed. cbn [Node_init level set_nw set_ne set_sw set_children].
    rewrite Ed. cbn [bind].
    eexists. split; [done|].
    eapply full_inner; simpl; done.
Qed.

(** ** Trees that tile a power-of-two square *)

Lemma full_tiled a k x y n : full a k x y n → tiled (pixel_leaf a) k x y n.
Proof.
  induction 1.
  - eapply tiled_leaf; try done. by rewrite side_0, !Z.add_simpl_r.
  - by eapply tiled_inner.
Qed.

Lemma tiled_weaken (P Q : nat → Z → Z → Color → Prop) k x y n :
  (∀ k x y c, P k x y c → Q k x y c) → tiled P k x y n → tiled Q k x y n.
Proof.
  intros HPQ. induction 1.
  - eapply tiled_leaf; eauto.
  - by eapply tiled_inner.
Qed.

Lemma tiled_shaped s k x y n : tiled (any_leaf s) k x y n → shaped s n.
Proof.
  induction 1.
  - by eapply shaped_leaf.
  - by eapply shaped_inner.
Qed.

Lemma full_shaped a k x y n :
  wf_array a → full a k x y n → shaped (shape_of a) n.
Proof.
  intros Hwf H. eapply tiled_shaped, tiled_weaken, full_tiled, H.
  intros ???? [_ Hc]. by eapply np_getitem_shape.
Qed.

Lemma compress_tiled s qt th k x y n :
  tiled (any_leaf s) k x y n →
  ∃ n', compress_quadtree_recursive qt n th = Ok n' ∧
        tiled (any_leaf s) k x y n'.
Proof.
  induction 1 as [k x y n c Hcor Hc Hs H1 H2 H3 H4
                 |k x y n a b c d Hcor Hc Ha Hb Hcc Hd
                    Ta IHa Tb IHb Tc IHc Td IHd].
  - exists n. split; [by apply compress_leaf|]. by eapply tiled_leaf.
  - destruct IHa as (a' & Ea & Ta'). destruct IHb as (b' & Eb & Tb').
    destruct IHc as (c' & Ec & Tc'). destruct IHd as (d' & Ed & Td').
    rewrite compress_unfold, Ha, Hb, Hcc, Hd. cbv beta iota zeta.
    rewrite Ea, Eb, Ec, Ed. simpl.
    destruct (combine_colors_shaped s
                (set_children n (Some a') (Some b') (Some c') (Some d')) th
                a' b' c' d') as (r & -> & Hr);
      try done; try by eapply shaped_color_ok, tiled_shaped.
    simpl. destruct r as [m|].
    + eexists. split; [done|]. by eapply tiled_leaf.
    + eexists. split; [done|]. by eapply tiled_inner.
Qed.

Lemma in_region_true y0 y1 x0 x1 i j :
  in_region y0 y1 x0 x1 i j = true ↔ (y0 ≤ i < y1 ∧ x0 ≤ j < x1)%nat.
Proof.
  unfold in_region.
  rewrite !andb_true_iff, !Nat.leb_le, !Nat.ltb_lt. lia.
Qed.

Lemma in_region_false y0 y1 x0 x1 i j :
  in_region y0 y1 x0 x1 i j = false ↔ ¬ (y0 ≤ i < y1 ∧ x0 ≤ j < x1)%nat.
Proof. rewrite <- in_region_true. by destruct (in_region _ _ _ _ _ _). Qed.

(** [draw_color] on a square inside the buffer writes exactly that square. *)
Lemma draw_paint_fits h w ch db n c k x y i j :
  corners_of n = (x, y, x + side k - 1, y + side k - 1) →
  fits h w k x y →
  (¬ in_rect k x y i j → draw_paint h w ch db n c i j = None) ∧
  (in_rect k x y i j →
     is_Some (draw_paint h w ch db n c i j) ∧
     (db = false →
      draw_paint h w ch db n c i j = Some (written ch c (j - Z.to_nat x)))).
Proof.
  intros Hcor (Hx0 & Hx1 & Hy0 & Hy1). pose proof (side_pos k) as Hp.
  unfold corners_of in Hcor. inversion Hcor as [[Hux Huy Hdx Hdy]].
  unfold draw_paint, in_rect. rewrite Hdx, Hdy, Hux, Huy.
  rewrite !py_clip_inb by lia.
  rewrite !py_index_inb by lia.
  split.
  - intros Hout.
    assert (E1 : in_region (Z.to_nat y) (Z.to_nat (y + side k - 1 + 1))
                   (Z.to_nat x) (Z.to_nat (x + side k - 1 + 1)) i j = false)
      by (apply in_region_false; lia).
    assert (E2 : in_region (Z.to_nat y) (Z.to_nat (y + side k - 1 + 1))
                   (Z.to_nat x) (S (Z.to_nat x)) i j = false)
      by (apply in_region_false; lia).
    assert (E3 : in_region (Z.to_nat y) (S (Z.to_nat y))
                   (Z.to_nat x) (Z.to_nat (x + side k - 1 + 1)) i j = false)
      by (apply in_region_false; lia).
    rewrite E1, E2, E3. by destruct db.
  - intros Hin.
    assert (E1 : in_region (Z.to_nat y) (Z.to_nat (y + side k - 1 + 1))
                   (Z.to_nat x) (Z.to_nat (x + side k - 1 + 1)) i j = true)
      by (apply in_region_true; lia).
    rewrite E1. split; [|by intros ->].
    destruct db; [|done].
    repeat case_match; done.
Qed.

(** On a tiling tree the traversal writes each cell of the square once: the
    cell is written by the coloured node whose square contains it. *)
Lemma paint_tiled P h w ch db k x y n :
  tiled P k x y n → fits h w k x y →
  ∀ i j,
    (¬ in_rect k x y i j → paint h w ch db n i j = None) ∧
    (in_rect k x y i j →
       ∃ k' x' y' m c,
         P k' x' y' c ∧
         corners_of m = (x', y', x' + side k' - 1, y' + side k' - 1) ∧
         fits h w k' x' y' ∧ in_rect k' x' y' i j ∧
         paint h w ch db n i j = draw_paint h w ch db m c i j).
Proof.
  induction 1 as [k x y n c Hcor Hc HP H1 H2 H3 H4
                 |k x y n a b c d Hcor Hc Ha Hb Hcc Hd
                    Ta IHa Tb IHb Tc IHc Td IHd];
    intros Hfit i j; rewrite paint_unfold, Hc; cbv zeta.
  - split.
    + intros Hout. by apply (draw_paint_fits h w ch db n c k x y i j).
    + intros Hin. exists k, x, y, n, c.
      split; [done|]. split; [done|]. split; [done|]. split; [done|]. reflexivity.
  - rewrite Ha, Hb, Hcc, Hd.
    pose proof (side_pos k) as Hp. pose proof (side_S k) as HS.
    destruct Hfit as (Hx0 & Hx1 & Hy0 & Hy1).
    destruct (IHa ltac:(unfold fits; lia) i j) as [Oa Ia].
    destruct (IHb ltac:(unfold fits; lia) i j) as [Ob Ib].
    destruct (IHc ltac:(unfold fits; lia) i j) as [Oc Ic].
    destruct (IHd ltac:(unfold fits; lia) i j) as [Od Id].
    unfold in_rect in *. split.
    + intros Hout. rewrite Oa, Ob, Oc, Od by lia. done.
    + intros Hin.
      destruct (decide (Z.of_nat j < x + side k)) as [Hj|Hj];
        destruct (decide (Z.of_nat i < y + side k)) as [Hi|Hi].
      * rewrite Ob, Oc, Od by lia. apply Ia. lia.
      * rewrite Oa, Ob, Od by lia.
        cbn [orelse]. rewrite ?orelse_None_r. apply Ic. lia.
      * rewrite Oa, Oc, Od by lia.
        cbn [orelse]. rewrite ?orelse_None_r. apply Ib. lia.
      * rewrite Oa, Ob, Oc by lia.
        cbn [orelse]. rewrite ?orelse_None_r. apply Id. lia.
Qed.

Lemma side_ne_3 k : side k ≠ 3.
Proof.
  destruct k as [|[|k]]; [done|done|].
  rewrite !side_S. pose proof (side_pos k). lia.
Qed.

Lemma shape_of_dims a b : same_dims a b → shape_of a = shape_of b.
Proof. intros (_ & _ & Hc). unfold shape_of. by rewrite Hc. Qed.

Lemma broadcastable_shape a c :
  has_shape (shape_of a) c → broadcastable c (chan_len a) = true.
Proof.
  unfold shape_of, chan_len. destruct (channels a), c; simpl; try done.
  intros ->. by rewrite Nat.eqb_refl.
Qed.

Lemma np_setitem_block_ok a ya yb xa xb c :
  has_shape (shape_of a) c → ∃ a', np_setitem_block a ya yb xa xb c = Ok a'.
Proof.
  intros Hs. unfold np_setitem_block.
  pose proof (broadcastable_shape a c Hs) as Hb.
  unfold shape_of, chan_len in *.
  destruct (channels a) as [k|].
  - rewrite Hb. eauto.
  - destruct c; [|done]. simpl. eauto.
Qed.

(** Drawing a coloured square that lies inside the buffer: without the border
    it always succeeds; with the border it succeeds on 3-channel buffers and
    is refused by numpy on every other buffer. *)
Lemma draw_color_fits qt n c k x y db :
  has_shape (shape_of (image qt)) c →
  corners_of n = (x, y, x + side k - 1, y + side k - 1) →
  fits (height (image qt)) (width (image qt)) k x y →
  if negb db || bool_decide (channels (image qt) = Some 3%nat)
  then ∃ qt', draw_color qt n c db = Ok qt'
  else draw_color qt n c db = Raise ValueError.
Proof.
  intros Hs Hcor (Hx0 & Hx1 & Hy0 & Hy1). pose proof (side_pos k) as Hp.
  unfold corners_of in Hcor. inversion Hcor as [[Hux Huy Hdx Hdy]].
  unfold draw_color.
  destruct (np_setitem_block_ok (image qt) (ul_y n) (dr_y n + 1) (ul_x n)
              (dr_x n + 1) c Hs) as (a' & Ea).
  rewrite Ea. cbn [bind].
  apply np_setitem_block_spec in Ea. destruct Ea as ((Dh & Dw & Dc) & _ & _).
  destruct db; cbn [negb orb]; [|eauto].
  unfold np_setitem_col, np_setitem_row.
  rewrite Dh, Dw, Dc, Hdx, Hdy, Hux, Huy. rewrite !py_index_inb by lia.
  cbn [bind]. rewrite !py_clip_inb by lia.
  destruct (channels (image qt)) as [cn|] eqn:Ech.
  - case_bool_decide as Hc3.
    + inversion Hc3; subst. simpl. rewrite Dh, Dw, Dc, !py_index_inb by lia.
      simpl. eauto.
    + assert (cn ≠ 3%nat) by congruence.
      by destruct cn as [|[|[|[|?]]]].
  - rewrite bool_decide_eq_false_2 by done.
    assert (Hb : broadcastable black
                   (Z.to_nat (y + side k - 1 + 1) - Z.to_nat y) = false).
    { unfold broadcastable, black. cbn [length].
      apply orb_false_iff. split; [|done].
      apply Nat.eqb_neq. pose proof (side_ne_3 k). lia. }
    by rewrite Hb.
Qed.

Lemma render_tiled s db k x y n :
  tiled (any_leaf s) k x y n →
  ∀ qt, shape_of (image qt) = s →
        fits (height (image qt)) (width (image qt)) k x y →
  if negb db || bool_decide (channels (image qt) = Some 3%nat)
  then ∃ qt', quadtree_to_image_recursive qt n db = Ok qt'
  else quadtree_to_image_recursive qt n db = Raise ValueError.
Proof.
  induction 1 as [k x y n c Hcor Hc Hs H1 H2 H3 H4
                 |k x y n a b c d Hcor Hc Ha Hb Hcc Hd
                    Ta IHa Tb IHb Tc IHc Td IHd];
    intros qt Hsh Hfit; rewrite render_unfold, Hc; cbv zeta.
  - unfold any_leaf in Hs. rewrite <- Hsh in Hs.
    pose proof (draw_color_fits qt n c k x y db Hs Hcor Hfit) as Hd.
    destruct (negb db || bool_decide (channels (image qt) = Some 3%nat)).
    + destruct Hd as (qt' & ->). simpl. eauto.
    + by rewrite Hd.
  - cbn [bind]. rewrite Ha, Hb, Hcc, Hd.
    pose proof (side_pos k) as Hp. pose proof (side_S k) as HS.
    destruct Hfit as (Hx0 & Hx1 & Hy0 & Hy1).
    assert (Hstep : ∀ q q' m, quadtree_to_image_recursive q m db = Ok q' →
              same_dims (image q') (image q)).
    { intros q q' m Hq. by destruct (render_spec db m q q' Hq). }
    specialize (IHa qt Hsh ltac:(unfold fits; lia)).
    destruct (negb db || bool_decide (channels (image qt) = Some 3%nat)) eqn:Eb;
      [|by rewrite IHa].
    destruct IHa as (q1 & E1). rewrite E1. cbn [bind].
    pose proof (Hstep _ _ _ E1) as D1. pose proof D1 as (Dh1 & Dw1 & Dc1).
    specialize (IHb q1). rewrite Dh1, Dw1, Dc1, Eb in IHb.
    destruct IHb as (q2 & E2);
      [by rewrite (shape_of_dims _ _ D1)|unfold fits; lia|].
    rewrite E2. cbn [bind].
    pose proof (Hstep _ _ _ E2) as D2. pose proof D2 as (Dh2 & Dw2 & Dc2).
    specialize (IHc q2). rewrite Dh2, Dw2, Dc2, Dh1, Dw1, Dc1, Eb in IHc.
    destruct IHc as (q3 & E3);
      [by rewrite (shape_of_dims _ _ D2), (shape_of_dims _ _ D1)
      |unfold fits; lia|].
    rewrite E3. cbn [bind].
    pose proof (Hstep _ _ _ E3) as D3. pose proof D3 as (Dh3 & Dw3 & Dc3).
    specialize (IHd q3).
    rewrite Dh3, Dw3, Dc3, Dh2, Dw2, Dc2, Dh1, Dw1, Dc1, Eb in IHd.
    apply IHd; [|unfold fits; lia].
    by rewrite (shape_of_dims _ _ D3), (shape_of_dims _ _ D2),
               (shape_of_dims _ _ D1).
Qed.

(** ** Buffers *)

Lemma np_empty_wf g h w c : wf_array (np_empty g h w c).
Proof.
  split; simpl; [by rewrite length_fmap, length_seq|].
  apply Forall_fmap, Forall_forall. intros y _. simpl.
  split; [by rewrite length_fmap, length_seq|].
  apply Forall_fmap, Forall_forall. intros x _. simpl.
  rewrite length_fmap, length_seq. unfold chan_len. simpl. by destruct c.
Qed.

Lemma px_None a i j :
  wf_array a → (height a ≤ i ∨ width a ≤ j)%nat → px a i j = None.
Proof.
  intros [Hh Hwf] Hout. unfold px.
  destruct (pix a !! i) as [row|] eqn:Er; [|done]. simpl.
  rewrite Forall_lookup in Hwf. destruct (Hwf i row Er) as [Hw _].
  apply lookup_lt_Some in Er. apply lookup_ge_None_2. lia.
Qed.

(** Two buffers of one shape that agree cell by cell are equal. *)
Lemma array_ext a b :
  wf_array a → wf_array b → same_dims a b →
  (∀ i j, px a i j = px b i j) → a = b.
Proof.
  destruct a as [ha wa ca pa], b as [hb wb cb pb].
  intros [Ha Wa] [Hb Wb] (Dh & Dw & Dc) Hpx. simpl in *.
  rewrite <- Dh, <- Dw, <- Dc. clear Wa Wb. subst ha hb.
  f_equal. apply list_eq. intros i.
  destruct (pa !! i) as [ra|] eqn:Ea; destruct (pb !! i) as [rb|] eqn:Eb.
  - f_equal. apply list_eq. intros j. specialize (Hpx i j).
    unfold px in Hpx. simpl in Hpx. by rewrite Ea, Eb in Hpx.
  - apply lookup_lt_Some in Ea. apply lookup_ge_None_1 in Eb. lia.
  - apply lookup_lt_Some in Eb. apply lookup_ge_None_1 in Ea. lia.
  - done.
Qed.

(** ** Fuel *)

Lemma build_fuel_mono qt fuel :
  ∀ node t, build_quadtree_recursive fuel qt node = Ok t →
  ∀ fuel', (fuel ≤ fuel')%nat → build_quadtree_recursive fuel' qt node = Ok t.
Proof.
  induction fuel as [|fuel IH]; intros node t H fuel' Hle; [done|].
  destruct fuel' as [|fuel']; [lia|].
  cbn [build_quadtree_recursive] in *.
  destruct ((dr_x node - ul_x node =? 0) && (dr_y node - ul_y node =? 0));
    [done|].
  inv_bind H. inv_bind H. inv_bind H. inv_bind H.
  inv_bind H. inv_bind H. inv_bind H. inv_bind H.
  rewrite E. cbn [bind]. rewrite (IH _ _ E0 fuel') by lia. cbn [bind].
  rewrite E1. cbn [bind]. rewrite (IH _ _ E2 fuel') by lia. cbn [bind].
  rewrite E3. cbn [bind]. rewrite (IH _ _ E4 fuel') by lia. cbn [bind].
  rewrite E5. cbn [bind]. rewrite (IH _ _ E6 fuel') by lia. cbn [bind].
  done.
Qed.

Lemma build_deterministic qt f1 f2 node t1 t2 :
  build_quadtree_recursive f1 qt node = Ok t1 →
  build_quadtree_recursive f2 qt node = Ok t2 → t1 = t2.
Proof.
  intros H1 H2.
  pose proof (build_fuel_mono _ _ _ _ H1 (f1 `max` f2)%nat ltac:(lia)) as G1.
  pose proof (build_fuel_mono _ _ _ _ H2 (f1 `max` f2)%nat ltac:(lia)) as G2.
  congruence.
Qed.

(** ** Quadtrees produced by the public operations *)

Lemma build_valid img k :
  valid_image img k →
  ∃ t, build_quadtree_recursive (S k) (Quadtree_init img)
         (root (Quadtree_init img)) = Ok t ∧
       full img k 0 0 t.
Proof.
  intros (Hwf & Hh & Hw).
  destruct (build_full (Quadtree_init img) k Hwf (S k) 0 0 0) as (t & Et & Ft);
    simpl; try lia.
  exists t. split; [|done]. simpl in *. by rewrite Hh, Hw.
Qed.

Lemma quadtree_to_image_spec g qt db qt' out :
  quadtree_to_image g qt db = Ok (qt', out) →
  root qt' = root qt ∧ same_dims (image qt') (image qt) ∧
  wf_array (image qt') ∧ out = np_squeeze (image qt') ∧
  ∀ i j, px (image qt') i j =
         overlay (paint (height (image qt)) (width (image qt))
                        (channels (image qt)) db (root qt) i j)
                 (px (np_empty g (height (image qt)) (width (image qt))
                               (channels (image qt))) i j).
Proof.
  unfold quadtree_to_image. intros H. inv_bind H. inversion H; subst; clear H.
  apply render_spec in E. destruct E as [R D W P]. simpl in *.
  split; [done|]. split; [exact D|]. split; [apply W, np_empty_wf|].
  split; done.
Qed.

Lemma reachable_inv qt :
  reachable qt →
  wf_array (image qt) ∧ shaped (shape_of (image qt)) (root qt) ∧
  ∀ k, valid_image (image qt) k →
       tiled (any_leaf (shape_of (image qt))) k 0 0 (root qt).
Proof.
  induction 1 as [img fuel qt Hwf Hb
                 |qt th qt' Hr IH Hc
                 |g qt db qt' out Hr IH Hq].
  - unfold build_quadtree in Hb. inv_bind Hb. inversion Hb; subst; clear Hb.
    simpl. split; [done|]. split.
    + by eapply (build_shaped (Quadtree_init img) fuel Hwf); [..|exact E].
    + intros k Hv. destruct (build_valid img k Hv) as (t & Et & Ft).
      rewrite (build_deterministic _ _ _ _ _ _ E Et).
      eapply tiled_weaken, full_tiled, Ft.
      intros ???? [_ Hc]. by eapply np_getitem_shape.
  - destruct IH as (Hwf & Hs & Ht).
    unfold compress_quadtree in Hc. inv_bind Hc. inversion Hc; subst; clear Hc.
    simpl. split; [done|]. split.
    + destruct (compress_shaped _ qt th _ Hs) as (n' & En & Sn & _). congruence.
    + intros k Hv.
      destruct (compress_tiled _ qt th _ _ _ _ (Ht k Hv)) as (n' & En & Tn).
      congruence.
  - destruct IH as (Hwf & Hs & Ht).
    apply quadtree_to_image_spec in Hq.
    destruct Hq as (R & D & W & _ & _).
    rewrite R, (shape_of_dims _ _ D). split; [done|]. split; [done|].
    intros k (_ & Hh & Hw). destruct D as (Dh & Dw & _).
    apply Ht. rewrite Dh, Dw in *. done.
Qed.

(** ** Round trip *)

Lemma overlay_None o : overlay o None = None.
Proof. by destruct o. Qed.






Lemma img2x2_valid : valid_image img2x2 1.
Proof. repeat split; repeat constructor. Defined.


(** ** Node counts *)

Lemma full_count a k x y t :
  full a k x y t → 3 * count_nodes_rec t + 1 = 4 * (side k * side k).
Proof.
  induction 1 as [x y n c Hcor Hc Hg H1 H2 H3 H4
                 |k x y n ta tb tc td Hcor Hc Ha Hb Hcc Hd
                    Fa IHa Fb IHb Fc IHc Fd IHd].
  - destruct n. simpl in *. by subst.
  - destruct n. simpl in *. subst. rewrite side_S. lia.
Qed.

Lemma Qeq_bool_false (a b : Q) : ¬ (a == b)%Q → Qeq_bool a b = false.
Proof.
  intros H. destruct (Qeq_bool a b) eqn:E; [|done].
  by apply Qeq_bool_iff in E.
Qed.

Lemma max_num_nodes_S fuel N :
  max_num_nodes (S fuel) N =
  if Qeq_bool N 1 then Ok 1%Q
  else let* r := max_num_nodes fuel (N / 2)%Q in Ok (0 + N * N + r)%Q.
Proof. done. Qed.

Lemma max_num_nodes_pow2 (k : nat) :
  ∀ q, (q == inject_Z (side k))%Q →
  ∃ r, max_num_nodes (S k) q = Ok r ∧ (3 * r + 1 == 4 * (q * q))%Q.
Proof.
  induction k as [|k IH]; intros q Hq.
  - rewrite side_0 in Hq. simpl.
    assert (Qeq_bool q 1 = true) as -> by by apply Qeq_bool_iff.
    exists 1%Q. split; [done|]. by rewrite Hq.
  - pose proof (side_pos k) as Hp.
    rewrite max_num_nodes_S, Qeq_bool_false.
    + destruct (IH (q / 2)%Q) as (r & -> & Hr).
      { rewrite Hq, side_S, inject_Z_mult. field. }
      cbn [bind]. eexists. split; [done|].
      assert (E : (3 * (0 + q * q + r) + 1 == 3 * (q * q) + (3 * r + 1))%Q)
        by ring.
      rewrite E, Hr. field.
    + rewrite Hq. intros Hc. change 1%Q with (inject_Z 1) in Hc.
      apply (proj1 (inject_Z_injective _ _)) in Hc. rewrite side_S in Hc. lia.
Qed.

(** C2. For every valid image of side [N = 2^k], the number of nodes of the
    freshly built tree equals [max_num_nodes(N)]. *)
Theorem count_nodes_build_max (img : ndarray) (k : nat) :
  valid_image img k →
  ∃ qt r,
    build_quadtree (S k) (Quadtree_init img) = Ok qt ∧
    max_num_nodes (S k) (inject_Z (Z.of_nat (height img))) = Ok r ∧
    (inject_Z (count_nodes (Some (root qt))) == r)%Q.
Proof.
  intros Hv. pose proof Hv as (Hwf & Hh & Hw).
  destruct (build_valid img k Hv) as (t & Et & Ft).
  unfold build_quadtree. rewrite Et. cbn [bind].
  destruct (max_num_nodes_pow2 k (inject_Z (Z.of_nat (height img))))
    as (r & Er & Hr); [by rewrite Hh|].
  eexists _, r. split; [done|]. split; [done|]. simpl.
  apply full_count in Ft.
  assert (E : (3 * inject_Z (count_nodes_rec t) + 1 == 3 * r + 1)%Q).
  { rewrite Hr, Hh.
    change 3%Q with (inject_Z 3). change 1%Q with (inject_Z 1).
    change 4%Q with (inject_Z 4).
    rewrite <- !inject_Z_mult, <- inject_Z_plus, Ft. reflexivity. }
  lra.
Qed.

Lemma count_nodes_build_max_witness :
  ∃ qt r,
    build_quadtree 2 (Quadtree_init img2x2) = Ok qt ∧
    max_num_nodes 2 (inject_Z (Z.of_nat (height img2x2))) = Ok r ∧
    (inject_Z (count_nodes (Some (root qt))) == r)%Q.
Proof. exact (count_nodes_build_max img2x2 1 img2x2_valid). Defined.

(** ** Termination of [max_num_nodes] *)




(** ** Compression of reachable quadtrees *)

Lemma compress_qt_irrel q1 q2 th (n : Node) :
  compress_quadtree_recursive q1 n th = compress_quadtree_recursive q2 n th.
Proof.
  induction n as [col a b c d x0 y0 x1 y1 l IHa IHb IHc IHd] using Node_ind.
  rewrite (compress_unfold q1), (compress_unfold q2). cbn [nw ne sw se].
  destruct a, b, c, d; simpl in IHa, IHb, IHc, IHd; cbv zeta;
    rewrite ?IHa, ?IHb, ?IHc, ?IHd; reflexivity.
Qed.

Lemma qt2x2_reachable : reachable qt2x2.
Proof.
  apply (reach_build img2x2 5); [apply img2x2_valid|reflexivity].
Defined.

Lemma compress_total (qt : Quadtree) (th : Q) :
  reachable qt → ∃ qt', compress_quadtree qt th = Ok qt'.
Proof.
  intros Hr. destruct (reachable_inv qt Hr) as (_ & Hs & _).
  destruct (compress_shaped _ qt th _ Hs) as (n' & En & _).
  unfold compress_quadtree. rewrite En. cbn [bind]. eauto.
Qed.

(** C3. For every quadtree produced by build (and possibly compressed or
    rendered since) and every threshold, compression succeeds, and
    compressing the result again with the same threshold leaves it exactly as
    it is: same colours, same child slots, at every node. *)
Theorem compress_idempotent (qt : Quadtree) (th : Q) :
  reachable qt →
  ∃ qt1, compress_quadtree qt th = Ok qt1 ∧ compress_quadtree qt1 th = Ok qt1.
Proof.
  intros Hr. destruct (compress_total qt th Hr) as (qt1 & E).
  exists qt1. split; [done|].
  unfold compress_quadtree in *. inv_bind E. inversion E; subst; clear E.
  cbn [root set_root].
  rewrite (compress_qt_irrel _ qt), (compress_idempotent_gen qt th _ _ E0).
  done.
Qed.

Lemma compress_idempotent_witness :
  ∃ qt1, compress_quadtree qt2x2 100 = Ok qt1 ∧
         compress_quadtree qt1 100 = Ok qt1.
Proof. exact (compress_idempotent qt2x2 100 qt2x2_reachable). Defined.

Lemma shaped_four_way s n m : shaped s n → subnode n m → four_way m.
Proof.
  intros Hs Hsub. induction Hsub as [n|n c m Hn _ IH|n c m Hn _ IH
                                    |n c m Hn _ IH|n c m Hn _ IH].
  - destruct Hs as [n c Hc _ H1 H2 H3 H4|n a b c d Hc Ha Hb Hcc Hd _ _ _ _];
      unfold four_way, is_Some;
      rewrite ?Hc, ?H1, ?H2, ?H3, ?H4, ?Ha, ?Hb, ?Hcc, ?Hd;
      (split; split; intros HH; try done; try (repeat split; by eexists));
      destruct_and?; try discriminate;
      repeat match goal with
      | H : ∃ _, None = Some _ |- _ => destruct H
      end; done.
  - destruct Hs as [|n a b c' d Hc Ha Hb Hcc Hd Sa Sb Sc Sd]; [congruence|].
    apply IH. congruence.
  - destruct Hs as [|n a b c' d Hc Ha Hb Hcc Hd Sa Sb Sc Sd]; [congruence|].
    apply IH. congruence.
  - destruct Hs as [|n a b c' d Hc Ha Hb Hcc Hd Sa Sb Sc Sd]; [congruence|].
    apply IH. congruence.
  - destruct Hs as [|n a b c' d Hc Ha Hb Hcc Hd Sa Sb Sc Sd]; [congruence|].
    apply IH. congruence.
Qed.

(** C5. After build, and after every later compression with any threshold,
    every node of the tree has a colour exactly when its four child slots are
    empty and lacks one exactly when its four child slots are filled. *)
Theorem four_way_consistency (qt : Quadtree) :
  reachable qt →
  (∀ m, subnode (root qt) m → four_way m) ∧
  (∀ th, ∃ qt', compress_quadtree qt th = Ok qt' ∧
                ∀ m, subnode (root qt') m → four_way m).
Proof.
  intros Hr. destruct (reachable_inv qt Hr) as (_ & Hs & _). split.
  - intros m. by apply (shaped_four_way _ _ _ Hs).
  - intros th. destruct (compress_total qt th Hr) as (qt' & E).
    exists qt'. split; [done|].
    destruct (reachable_inv qt' (reach_compress _ _ _ Hr E)) as (_ & Hs' & _).
    intros m. by apply (shaped_four_way _ _ _ Hs').
Qed.

Lemma four_way_consistency_witness :
  (∀ m, subnode (root qt2x2) m → four_way m) ∧
  (∀ th, ∃ qt', compress_quadtree qt2x2 th = Ok qt' ∧
                ∀ m, subnode (root qt') m → four_way m).
Proof. exact (four_way_consistency qt2x2 qt2x2_reachable). Defined.

(** ** Build and image dimensions *)

(** A 3x3 image is not a power-of-two square, yet build does not refuse it:
    it returns a tree (whose four leaves are the pixels of the upper-left 2x2
    corner). *)
Lemma build_accepts_3x3 :
  (¬ ∃ k, valid_image img3x3 k) ∧
  ∃ qt, build_quadtree 2 (Quadtree_init img3x3) = Ok qt ∧
        count_nodes (Some (root qt)) = 5.
Proof.
  split.
  - intros (k & _ & Hh & _). simpl in Hh. by apply (side_ne_3 k).
  - eexists. split; [vm_compute; reflexivity|]. vm_compute. reflexivity.
Qed.

(** C6 (amended). Build checks no dimensions.  On every image that is a
    square of side [2^k] it succeeds and returns the complete quadtree over
    the image. *)
Theorem build_succeeds_on_valid (img : ndarray) (k : nat) :
  valid_image img k →
  ∃ qt, build_quadtree (S k) (Quadtree_init img) = Ok qt ∧
        image qt = img ∧ full img k 0 0 (root qt).
Proof.
  intros Hv. destruct (build_valid img k Hv) as (t & Et & Ft).
  unfold build_quadtree. rewrite Et. cbn [bind]. eexists. split; [done|].
  split; done.
Qed.

Lemma build_succeeds_on_valid_witness :
  ∃ qt, build_quadtree 2 (Quadtree_init img2x2) = Ok qt ∧
        image qt = img2x2 ∧ full img2x2 1 0 0 (root qt).
Proof. exact (build_succeeds_on_valid img2x2 1 img2x2_valid). Defined.

(** ** Rendering is a function of the tree *)

Lemma paint_covers s h w ch db k n i j :
  tiled (any_leaf s) k 0 0 n → fits h w k 0 0 →
  Z.of_nat i < side k → Z.of_nat j < side k →
  is_Some (paint h w ch db n i j).
Proof.
  intros Ht Hfit Hi Hj.
  destruct (paint_tiled _ h w ch db k 0 0 n Ht Hfit i j) as [_ Hp].
  destruct Hp as (k' & x' & y' & m & c & _ & Hcor & Hf' & Hin' & ->);
    [unfold in_rect; lia|].
  by destruct (draw_paint_fits h w ch db m c k' x' y' i j Hcor Hf')
    as [_ [? _]].
Qed.

Lemma quadtree_eq (q1 q2 : Quadtree) :
  root q1 = root q2 → image q1 = image q2 → q1 = q2.
Proof. destruct q1, q2. simpl. by intros -> ->. Qed.

Lemma render_garbage_irrelevant qt k db g1 g2 :
  wf_array (image qt) →
  tiled (any_leaf (shape_of (image qt))) k 0 0 (root qt) →
  Z.of_nat (height (image qt)) = side k →
  Z.of_nat (width (image qt)) = side k →
  quadtree_to_image g1 qt db = quadtree_to_image g2 qt db.
Proof.
  intros Hwf Ht Hh Hw.
  set (h := height (image qt)). set (w := width (image qt)).
  set (ch := channels (image qt)).
  assert (Hfit : fits h w k 0 0) by (unfold fits; lia).
  pose proof (render_tiled _ db k 0 0 _ Ht
                (set_image qt (np_empty g1 h w ch)) eq_refl Hfit) as R1.
  pose proof (render_tiled _ db k 0 0 _ Ht
                (set_image qt (np_empty g2 h w ch)) eq_refl Hfit) as R2.
  cbn [image set_image np_empty channels] in R1, R2.
  destruct (negb db || bool_decide (ch = Some 3%nat)).
  - destruct R1 as (q1 & E1). destruct R2 as (q2 & E2).
    assert (Q1 : quadtree_to_image g1 qt db = Ok (q1, np_squeeze (image q1))).
    { unfold quadtree_to_image. fold h w ch. cbn [root set_image].
      by rewrite E1. }
    assert (Q2 : quadtree_to_image g2 qt db = Ok (q2, np_squeeze (image q2))).
    { unfold quadtree_to_image. fold h w ch. cbn [root set_image].
      by rewrite E2. }
    rewrite Q1, Q2.
    destruct (quadtree_to_image_spec _ _ _ _ _ Q1) as (Rt1 & D1 & W1 & _ & P1).
    destruct (quadtree_to_image_spec _ _ _ _ _ Q2) as (Rt2 & D2 & W2 & _ & P2).
    fold h w ch in P1, P2.
    assert (q1 = q2) as ->; [|done].
    apply quadtree_eq; [congruence|].
    apply array_ext; try done.
    { destruct D1 as (? & ? & ?), D2 as (? & ? & ?).
      unfold same_dims. repeat split; congruence. }
    intros i j. rewrite P1, P2.
    destruct (decide (i < h ∧ j < w)%nat) as [Hin|Hout].
    + destruct (paint_covers _ h w ch db k (root qt) i j Ht Hfit) as [p ->];
        [lia..|].
      destruct (px_is_Some _ i j (np_empty_wf g1 h w ch)) as [p1 ->];
        [simpl; lia..|].
      destruct (px_is_Some _ i j (np_empty_wf g2 h w ch)) as [p2 ->];
        [simpl; lia..|].
      done.
    + rewrite (px_None (np_empty g1 h w ch));
        [|apply np_empty_wf|simpl; lia].
      rewrite (px_None (np_empty g2 h w ch));
        [|apply np_empty_wf|simpl; lia].
      by rewrite !overlay_None.
  - unfold quadtree_to_image. fold h w ch. cbn [root set_image].
    by rewrite R1, R2.
Qed.

(** The entry point reads of the quadtree only its root and the shape of its
    image. *)
Lemma quadtree_to_image_same (q1 q2 : Quadtree) g db :
  root q1 = root q2 → same_dims (image q1) (image q2) →
  quadtree_to_image g q1 db = quadtree_to_image g q2 db.
Proof.
  intros R (Dh & Dw & Dc). unfold quadtree_to_image, set_image.
  cbn [root]. by rewrite R, Dh, Dw, Dc.
Qed.

(** A valid single-channel image given with its channel axis, shape
    [(2, 2, 1)]: the rendered array has shape [(2, 2)]. *)
Lemma render_drops_unit_axes :
  (∃ k, valid_image img2x2x1 k) ∧
  ∃ qt1 qt2 out,
    build_quadtree 2 (Quadtree_init img2x2x1) = Ok qt1 ∧
    quadtree_to_image (fun _ => 0%Q) qt1 false = Ok (qt2, out) ∧
    shape img2x2x1 = [2; 2; 1]%nat ∧
    fa_shape out = [2; 2]%nat ∧
    fa_shape out ≠ shape img2x2x1.
Proof.
  split.
  - exists 1%nat. repeat split; repeat constructor.
  - do 3 eexists. split; [vm_compute; reflexivity|].
    split; [vm_compute; reflexivity|]. done.
Qed.

(** C7 (amended). For a quadtree produced over a valid image: rendering
    leaves every node as it was; its outcome does not depend on the initial
    contents of the fresh buffer, so rendering twice gives equal buffers;
    without borders (and with borders on a 3-channel image) it succeeds; and
    the shape of the returned array is the image's shape with the axes of
    length 1 removed. *)
Theorem render_pure (qt : Quadtree) (k : nat) (db : bool) (g : nat → Q) :
  reachable qt → valid_image (image qt) k →
  (∀ g', quadtree_to_image g' qt db = quadtree_to_image g qt db) ∧
  (∀ qt' out, quadtree_to_image g qt db = Ok (qt', out) →
     root qt' = root qt ∧
     (∀ g', quadtree_to_image g' qt' db = Ok (qt', out)) ∧
     fa_shape out = filter (fun d => d ≠ 1%nat) (shape (image qt))) ∧
  (db = false ∨ channels (image qt) = Some 3%nat →
     ∃ qt' out, quadtree_to_image g qt db = Ok (qt', out)).
Proof.
  intros Hr Hv. destruct (reachable_inv qt Hr) as (Hwf & _ & Ht).
  specialize (Ht k Hv). destruct Hv as (_ & Hh & Hw).
  split; [|split].
  - intros g'. by apply (render_garbage_irrelevant qt k).
  - intros qt' out Hq.
    destruct (quadtree_to_image_spec _ _ _ _ _ Hq) as (R & D & _ & Ho & _).
    split; [done|]. split.
    + intros g'. rewrite <- Hq.
      rewrite (quadtree_to_image_same qt' qt g' db R D).
      by apply (render_garbage_irrelevant qt k).
    + subst out. destruct D as (Dh & Dw & Dc).
      unfold np_squeeze, shape. simpl. by rewrite Dh, Dw, Dc.
  - intros Hdb.
    pose proof (render_tiled _ db k 0 0 _ Ht
                  (set_image qt (np_empty g (height (image qt))
                                   (width (image qt)) (channels (image qt))))
                  eq_refl ltac:(unfold fits; simpl; lia)) as R.
    cbn [image set_image np_empty channels] in R.
    assert (negb db || bool_decide (channels (image qt) = Some 3%nat) = true)
      as Hb.
    { destruct Hdb as [->|Hc]; [done|].
      rewrite bool_decide_eq_true_2 by done. apply orb_true_r. }
    rewrite Hb in R. destruct R as (q' & E).
    exists q', (np_squeeze (image q')). unfold quadtree_to_image.
    cbn [root set_image]. by rewrite E.
Qed.

Lemma render_pure_witness :
  (∀ g', quadtree_to_image g' qt2x2 false
         = quadtree_to_image (fun _ => 7%Q) qt2x2 false) ∧
  (∀ qt' out, quadtree_to_image (fun _ => 7%Q) qt2x2 false = Ok (qt', out) →
     root qt' = root qt2x2 ∧
     (∀ g', quadtree_to_image g' qt' false = Ok (qt', out)) ∧
     fa_shape out = filter (fun d => d ≠ 1%nat) (shape (image qt2x2))) ∧
  (false = false ∨ channels (image qt2x2) = Some 3%nat →
     ∃ qt' out, quadtree_to_image (fun _ => 7%Q) qt2x2 false = Ok (qt', out)).
Proof.
  exact (render_pure qt2x2 1 false (fun _ => 7%Q) qt2x2_reachable img2x2_valid).
Defined.

(** ** Borders *)

Lemma broadcastable_black n : broadcastable black n = (3 =? n)%nat.
Proof. unfold broadcastable, black. cbn [length]. apply orb_false_r. Qed.

(** C10. On a 2-D (single-channel) buffer, visiting with [draw_box = True] a
    coloured node whose rectangle lies inside the buffer and whose height or
    width is not 3 fails: numpy cannot broadcast the 3-vector [[0, 0, 0]]
    into the border slice, which has no channel axis. *)
Theorem draw_box_grayscale_fails (qt : Quadtree) (n : Node) (c : Color) :
  channels (image qt) = None → color n = Some c →
  0 ≤ ul_x n ≤ dr_x n → dr_x n < Z.of_nat (width (image qt)) →
  0 ≤ ul_y n ≤ dr_y n → dr_y n < Z.of_nat (height (image qt)) →
  dr_y n - ul_y n + 1 ≠ 3 ∨ dr_x n - ul_x n + 1 ≠ 3 →
  quadtree_to_image_recursive qt n true = Raise ValueError.
Proof.
  intros Hch Hc Hx Hx' Hy Hy' Hsz.
  rewrite render_unfold, Hc. cbv zeta. unfold draw_color.
  unfold np_setitem_block. rewrite Hch.
  destruct (broadcastable c _); [|done]. cbn [bind].
  unfold np_setitem_col. cbn [width height channels set_region].
  rewrite py_index_inb by lia. cbn [bind]. rewrite Hch.
  rewrite !py_clip_inb by lia. rewrite broadcastable_black.
  destruct (3 =? _)%nat eqn:E3; [|done]. apply Nat.eqb_eq in E3.
  cbn [bind]. unfold np_setitem_row. cbn [width height channels set_region].
  rewrite py_index_inb by lia. cbn [bind]. rewrite Hch.
  rewrite !py_clip_inb by lia. rewrite broadcastable_black.
  destruct (3 =? _)%nat eqn:E4; [|done]. apply Nat.eqb_eq in E4. lia.
Qed.

Lemma draw_box_grayscale_fails_witness :
  quadtree_to_image_recursive qt2x2 leaf00 true = Raise ValueError.
Proof.
  apply (draw_box_grayscale_fails qt2x2 leaf00 (Scalar 10));
    try reflexivity; simpl; lia.
Defined.

(** What the public entry point does with borders on a valid image: it
    succeeds on 3-channel images and fails on all others. *)
Lemma quadtree_to_image_outcome (qt : Quadtree) (k : nat) (db : bool) g :
  reachable qt → valid_image (image qt) k →
  if negb db || bool_decide (channels (image qt) = Some 3%nat)
  then ∃ qt' out, quadtree_to_image g qt db = Ok (qt', out)
  else quadtree_to_image g qt db = Raise ValueError.
Proof.
  intros Hr Hv. destruct (reachable_inv qt Hr) as (Hwf & _ & Ht).
  specialize (Ht k Hv). destruct Hv as (_ & Hh & Hw).
  pose proof (render_tiled _ db k 0 0 _ Ht
                (set_image qt (np_empty g (height (image qt))
                                 (width (image qt)) (channels (image qt))))
                eq_refl ltac:(unfold fits; simpl; lia)) as R.
  cbn [image set_image np_empty channels] in R.
  unfold quadtree_to_image. cbn [root set_image].
  destruct (negb db || bool_decide (channels (image qt) = Some 3%nat)).
  - destruct R as (q' & ->). cbn [bind]. eauto.
  - by rewrite R.
Qed.

Corollary draw_box_needs_three_channels (qt : Quadtree) (k : nat) g :
  reachable qt → valid_image (image qt) k →
  (∃ r, quadtree_to_image g qt true = Ok r) ↔ channels (image qt) = Some 3%nat.
Proof.
  intros Hr Hv. pose proof (quadtree_to_image_outcome qt k true g Hr Hv) as H.
  cbn [negb orb] in H. case_bool_decide as Hc.
  - split; [done|]. intros _. destruct H as (q & o & ->). eauto.
  - split; [|done]. intros (r & Er). congruence.
Qed.

(** ** Combining the colours of four children *)








Example combine_colors_2x2 :
  combine_colors (root qt2x2) 100 = Ok (Some (Scalar (42 # 4))) ∧
  (np_sum (np_var_axis0 (Stack1 [10; 10; 10; 12])) == 3 # 4)%Q ∧
  (42 # 4 == 21 # 2)%Q ∧
  (let* q := compress_quadtree qt2x2 100 in Ok (count_nodes (Some (root q))))
  = Ok 1.
Proof. repeat split; vm_compute; reflexivity. Qed.

(** ** The model on concrete inputs *)

Example corners_4x4_se :
  compute_image_corners (Node_init None (0, 0, 3, 3) 0) "se" = Ok (2, 2, 3, 3).
Proof. vm_compute. reflexivity. Qed.

(** Odd sides are truncated by [int]: the 'ne' quadrant of a 3x3 square is
    the single pixel at column 1. *)
Example corners_3x3_ne :
  compute_image_corners (Node_init None (0, 0, 2, 2) 0) "ne" = Ok (1, 0, 1, 0).
Proof. vm_compute. reflexivity. Qed.

Example py_slice_negative :
  py_clip 4 (-1) = 3%nat ∧ py_clip 4 (-9) = 0%nat ∧ py_clip 4 7 = 4%nat ∧
  py_index 4 (-1) = Ok 3%nat ∧ py_index 4 4 = Raise IndexError.
Proof. repeat split. Qed.

Example max_num_nodes_256 :
  ∃ r, max_num_nodes 9 256 = Ok r ∧ (r == 87381)%Q.
Proof. eexists. split; [vm_compute; reflexivity|]. reflexivity. Qed.

Example max_num_nodes_3 : max_num_nodes 200 3 = OutOfFuel.
Proof. vm_compute. reflexivity. Qed.

(** Threshold 0 merges nothing: the variance 0.75 is not below it. *)
Example compress_2x2_threshold_0 :
  (let* q := compress_quadtree qt2x2 0 in Ok (count_nodes (Some (root q))))
  = Ok 5.
Proof. vm_compute. reflexivity. Qed.

(** A uniform 4x4 image collapses to its root under a positive threshold,
    and renders as the uniform image (the merged colour is the fraction
    7168/1024, reduced here by [Qred]). *)
Example compress_uniform_4x4 :
  (let* q := build_quadtree 3 (Quadtree_init img4x4_uniform) in
   let* q := compress_quadtree q (1 # 1000) in
   let* r := quadtree_to_image (fun _ => 0%Q) q false in
   Ok (count_nodes (Some (root q)), map (map (map Qred)) (pix (image (fst r)))))
  = Ok (1, pix img4x4_uniform).
Proof. vm_compute. reflexivity. Qed.

(** A 2x4 image: the lower-left child has height 1 at row 1, its children
    get height 0, and the recursion never reaches a single pixel. *)
Example build_2x4_out_of_fuel :
  build_quadtree 40
    (Quadtree_init {| height := 2; width := 4; channels := None;
                      pix := replicate 2 (replicate 4 [0%Q]) |})
  = OutOfFuel.
Proof. vm_compute. reflexivity. Qed.

(** Borders on a 3-channel 2x2 image: every node is one pixel, so every
    pixel is a border pixel and the rendering is black. *)
Example draw_box_rgb_2x2 :
  (let* q := build_quadtree 2
               (Quadtree_init {| height := 2; width := 2; channels := Some 3%nat;
                                 pix := replicate 2 (replicate 2 [1; 2; 3]%Q) |}) in
   let* r := quadtree_to_image (fun _ => 9%Q) q true in
   Ok (pix (image (fst r))))
  = Ok (replicate 2 (replicate 2 [0; 0; 0]%Q)).
Proof. vm_compute. reflexivity. Qed.

(** * Further properties of the module *)

(** ** Geometry of the quadrants *)

Lemma py_int_half (q : Q) (n : Z) : (q == inject_Z n / 2)%Q → py_int q = Z.quot n 2.
Proof.
  unfold Qeq, py_int. simpl. intros H.
  assert (H' : Qnum q * 2 = n * Z.pos (Qden q)) by lia.
  transitivity (Z.quot (Qnum q * 2) (Z.pos (Qden q) * 2));
    [symmetry; apply Z.quot_mul_cancel_r; lia|].
  rewrite H', (Z.mul_comm (Z.pos (Qden q)) 2).
  apply Z.quot_mul_cancel_r; lia.
Qed.

(** The corners in integer arithmetic, whatever the signs: each [int(...)]
    is a quotient by 2 truncated toward zero. *)
Lemma compute_image_corners_quot node child sx sy :
  quadrant_shift child = Ok (sx, sy) →
  let w := dr_x node - ul_x node + 1 in
  let h := dr_y node - ul_y node + 1 in
  let ulx := Z.quot (2 * ul_x node + sx * w) 2 in
  let uly := Z.quot (2 * ul_y node + sy * h) 2 in
  compute_image_corners node child =
  Ok (ulx, uly, Z.quot (2 * ulx + w - 2) 2, Z.quot (2 * uly + h - 2) 2).
Proof.
  intros Hs w h ulx uly. unfold compute_image_corners. rewrite Hs. simpl.
  fold w h.
  assert (E1 : py_int (inject_Z (ul_x node) + inject_Z sx * (inject_Z w / 2)) = ulx).
  { apply py_int_half.
    rewrite inject_Z_plus, !inject_Z_mult. change (inject_Z 2) with 2%Q. field. }
  assert (E2 : py_int (inject_Z (ul_y node) + inject_Z sy * (inject_Z h / 2)) = uly).
  { apply py_int_half.
    rewrite inject_Z_plus, !inject_Z_mult. change (inject_Z 2) with 2%Q. field. }
  rewrite E1, E2.
  assert (E3 : ∀ u m, py_int (inject_Z u + inject_Z m / 2 - 1)
                      = Z.quot (2 * u + m - 2) 2).
  { intros u m. apply py_int_half.
    unfold Z.sub. rewrite !inject_Z_plus, inject_Z_mult.
    change (inject_Z 2) with 2%Q. change (inject_Z (- (2))) with (-2)%Q. field. }
  by rewrite !E3.
Qed.

Lemma quadrant_shift_bit child sx sy :
  quadrant_shift child = Ok (sx, sy) → (sx = 0 ∨ sx = 1) ∧ (sy = 0 ∨ sy = 1).
Proof.
  unfold quadrant_shift. repeat case_match; intros [= <- <-]; lia.
Qed.

Lemma quot2_nonneg n : 0 ≤ n → Z.quot n 2 = n / 2.
Proof. intros. apply Z.quot_div_nonneg; lia. Qed.






Lemma div2_bounds m : 0 ≤ m → 2 * (m / 2) ≤ m < 2 * (m / 2) + 2.
Proof.
  intros Hm. pose proof (Z.div_mod m 2 ltac:(lia)).
  pose proof (Z.mod_pos_bound m 2 ltac:(lia)). lia.
Qed.



(** ** Build on arbitrary images *)

Lemma quot2_cases n :
  -2 ≤ n →
  (0 ≤ n ∧ Z.quot n 2 = n / 2) ∨ (n = -1 ∧ Z.quot n 2 = 0)
  ∨ (n = -2 ∧ Z.quot n 2 = -1).
Proof.
  intros Hn. destruct (decide (0 ≤ n)) as [H0|H0].
  - left. split; [done|]. by apply quot2_nonneg.
  - assert (n = -1 ∨ n = -2) as [->| ->] by lia; auto.
Qed.

(** Along one axis, a quadrant of a rectangle that lies in the image (and may
    be empty) lies in the rectangle, hence in the image. *)
Lemma quadrant_axis ul dr s :
  0 ≤ ul → ul - 1 ≤ dr → (s = 0 ∨ s = 1) →
  let w := dr - ul + 1 in
  let u' := Z.quot (2 * ul + s * w) 2 in
  let d' := Z.quot (2 * u' + w - 2) 2 in
  ul ≤ u' ∧ u' - 1 ≤ d' ∧ d' ≤ dr.
Proof.
  intros Hul Hdr Hs w u' d'.
  assert (Hw : 0 ≤ w) by (unfold w; lia).
  pose proof (div2_bounds w Hw) as Bw.
  assert (Eu : u' = ul + s * (w / 2)).
  { unfold u'. rewrite quot2_nonneg by (destruct Hs as [->| ->]; lia).
    destruct Hs as [->| ->].
    - replace (2 * ul + 0 * w) with (ul * 2) by lia.
      rewrite Z.div_mul by lia. lia.
    - replace (2 * ul + 1 * w) with (w + ul * 2) by lia.
      rewrite Z.div_add by lia. lia. }
  assert (Hu : 0 ≤ u') by (rewrite Eu; destruct Hs as [->| ->]; lia).
  destruct (quot2_cases (2 * u' + w - 2) ltac:(lia)) as [[Hn E]|[[Hn E]|[Hn E]]];
    fold d' in E.
  - assert (Ed : d' = u' + w / 2 - 1).
    { rewrite E. replace (2 * u' + w - 2) with (w + (u' - 1) * 2) by lia.
      rewrite Z.div_add by lia. lia. }
    rewrite Ed, Eu. unfold w in *. destruct Hs as [->| ->]; lia.
  - rewrite E. rewrite Eu in *. unfold w in *. destruct Hs as [->| ->]; lia.
  - rewrite E. rewrite Eu in *. unfold w in *. destruct Hs as [->| ->]; lia.
Qed.

Lemma child_in_image a node child sx sy l :
  in_image a node → quadrant_shift child = Ok (sx, sy) →
  ∃ cs, compute_image_corners node child = Ok cs ∧
        in_image a (Node_init None cs l).
Proof.
  intros (Hx0 & Hx1 & Hx2 & Hy0 & Hy1 & Hy2) Hs.
  rewrite (compute_image_corners_quot node child sx sy Hs). cbv zeta.
  eexists. split; [done|].
  destruct (quadrant_shift_bit _ _ _ Hs) as [Bx By].
  pose proof (quadrant_axis (ul_x node) (dr_x node) sx Hx0 Hx1 Bx) as Ax.
  pose proof (quadrant_axis (ul_y node) (dr_y node) sy Hy0 Hy1 By) as Ay.
  cbv zeta in Ax, Ay. unfold in_image, Node_init. simpl. lia.
Qed.

Lemma build_no_raise qt fuel :
  wf_array (image qt) →
  ∀ node e, in_image (image qt) node →
            build_quadtree_recursive fuel qt node ≠ Raise e.
Proof.
  intros Hwf. induction fuel as [|fuel IH]; intros node e Hin; [done|].
  cbn [build_quadtree_recursive].
  destruct ((dr_x node - ul_x node =? 0) && (dr_y node - ul_y node =? 0)) eqn:Et.
  - apply andb_true_iff in Et. destruct Et as [Ex Ey].
    destruct Hin as (Hx0 & Hx1 & Hx2 & Hy0 & Hy1 & Hy2).
    destruct (np_getitem_inb (image qt) (ul_y node) (ul_x node) Hwf)
      as [c ->]; [lia..|]. done.
  - assert (Hchild : ∀ nd tag sx sy,
      corners_of nd = corners_of node → quadrant_shift tag = Ok (sx, sy) →
      ∃ cs, compute_image_corners nd tag = Ok cs ∧
            ∀ l e', build_quadtree_recursive fuel qt (Node_init None cs l)
                    ≠ Raise e').
    { intros nd tag sx sy Hcor Hs.
      assert (Hin' : in_image (image qt) nd).
      { unfold corners_of in Hcor. inversion Hcor as [[E1 E2 E3 E4]].
        unfold in_image. by rewrite E1, E2, E3, E4. }
      destruct (child_in_image _ nd tag sx sy 0 Hin' Hs) as (cs & Ec & Hc).
      exists cs. split; [done|]. intros l e'. apply IH.
      destruct cs as [[[? ?] ?] ?]. exact Hc. }
    destruct (Hchild node "nw"%string 0 0 eq_refl eq_refl) as (c1 & -> & N1).
    cbn [bind].
    destruct (build_quadtree_recursive fuel qt (Node_init None c1 _))
      as [t1|e1|] eqn:B1; [|by destruct (N1 _ _ B1)|done].
    cbn [bind].
    destruct (Hchild (set_nw node (Some t1)) "ne"%string 1 0 eq_refl eq_refl)
      as (c2 & -> & N2).
    cbn [bind].
    destruct (build_quadtree_recursive fuel qt (Node_init None c2 _))
      as [t2|e2|] eqn:B2; [|by destruct (N2 _ _ B2)|done].
    cbn [bind].
    destruct (Hchild (set_ne (set_nw node (Some t1)) (Some t2)) "sw"%string 0 1
                eq_refl eq_refl) as (c3 & -> & N3).
    cbn [bind].
    destruct (build_quadtree_recursive fuel qt (Node_init None c3 _))
      as [t3|e3|] eqn:B3; [|by destruct (N3 _ _ B3)|done].
    cbn [bind].
    destruct (Hchild (set_sw (set_ne (set_nw node (Some t1)) (Some t2)) (Some t3))
                "se"%string 1 1 eq_refl eq_refl) as (c4 & -> & N4).
    cbn [bind].
    destruct (build_quadtree_recursive fuel qt (Node_init None c4 _))
      as [t4|e4|] eqn:B4; [|by destruct (N4 _ _ B4)|done].
    done.
Qed.




Lemma build_empty_rect qt fuel :
  ∀ node, dr_x node - ul_x node + 1 = 0 ∨ dr_y node - ul_y node + 1 = 0 →
          build_quadtree_recursive fuel qt node = OutOfFuel.
Proof.
  induction fuel as [|fuel IH]; intros node Hz; [done|].
  cbn [build_quadtree_recursive].
  assert ((dr_x node - ul_x node =? 0) && (dr_y node - ul_y node =? 0) = false)
    as -> by (apply andb_false_iff; destruct Hz; [left|right]; lia).
  rewrite (compute_image_corners_quot node "nw" 0 0 eq_refl). cbv zeta.
  cbn [bind]. rewrite IH; [done|].
  unfold Node_init. simpl.
  destruct Hz as [Hz|Hz]; [left|right].
  - replace (dr_x node - ul_x node + 1) with 0 by lia.
    replace (2 * ul_x node + 0 * 0) with (ul_x node * 2) by lia.
    rewrite Z.quot_mul by lia.
    replace (2 * ul_x node + 0 - 2) with ((ul_x node - 1) * 2) by lia.
    rewrite Z.quot_mul by lia. lia.
  - replace (dr_y node - ul_y node + 1) with 0 by lia.
    replace (2 * ul_y node + 0 * 0) with (ul_y node * 2) by lia.
    rewrite Z.quot_mul by lia.
    replace (2 * ul_y node + 0 - 2) with ((ul_y node - 1) * 2) by lia.
    rewrite Z.quot_mul by lia. lia.
Qed.

(** X4. On an empty image (height 0 or width 0) build never returns: the
    root is not a single pixel, and neither is any node below it, so the
    recursion has no end (Python stops it with a [RecursionError]). *)
Theorem build_empty_image_diverges (img : ndarray) (fuel : nat) :
  height img = 0%nat ∨ width img = 0%nat →
  build_quadtree fuel (Quadtree_init img) = OutOfFuel.
Proof.
  intros Hz. unfold build_quadtree. rewrite build_empty_rect; [done|].
  simpl. destruct Hz as [->| ->]; [right|left]; done.
Qed.

Lemma build_empty_image_diverges_witness :
  build_quadtree 1000
    (Quadtree_init {| height := 0; width := 0; channels := None; pix := [] |})
  = OutOfFuel.
Proof. apply build_empty_image_diverges. by left. Defined.

(** ** Compression only prunes *)

Lemma count_nodes_rec_unfold n :
  count_nodes_rec n =
  1 + count_nodes (nw n) + count_nodes (ne n) + count_nodes (sw n)
    + count_nodes (se n).
Proof. by destruct n. Qed.

Lemma count_nodes_rec_pos (n : Node) : 1 ≤ count_nodes_rec n.
Proof.
  induction n as [col a b c d x0 y0 x1 y1 l IHa IHb IHc IHd] using Node_ind.
  rewrite count_nodes_rec_unfold. simpl.
  destruct a, b, c, d; simpl in *; lia.
Qed.

Lemma compress_count qt th (n : Node) :
  ∀ n', compress_quadtree_recursive qt n th = Ok n' →
        count_nodes_rec n' ≤ count_nodes_rec n.
Proof.
  induction n as [col a b c d x0 y0 x1 y1 l IHa IHb IHc IHd] using Node_ind.
  intros n' H.
  destruct (decide (a = None ∧ b = None ∧ c = None ∧ d = None)) as [Hl|Hl].
  - destruct Hl as (-> & -> & -> & ->). rewrite compress_leaf in H by done.
    by inversion H.
  - apply compress_inner in H; [|exact Hl].
    destruct H as (ka & kb & kc & kd & a' & b' & c' & d' & cl & Ha & Hb & Hc
                   & Hd & Ea & Eb & Ec & Ed & _ & ->).
    simpl in Ha, Hb, Hc, Hd. subst a b c d. simpl in IHa, IHb, IHc, IHd.
    specialize (IHa _ Ea). specialize (IHb _ Eb).
    specialize (IHc _ Ec). specialize (IHd _ Ed).
    pose proof (count_nodes_rec_pos ka). pose proof (count_nodes_rec_pos kb).
    pose proof (count_nodes_rec_pos kc). pose proof (count_nodes_rec_pos kd).
    destruct cl; rewrite !count_nodes_rec_unfold; simpl; lia.
Qed.

(** X5. Compression never adds a node: whenever it returns, the compressed
    tree has at least one node and at most as many as before.  This holds
    for every tree, not only for those build produces. *)
Theorem compress_count_le (qt qt' : Quadtree) (th : Q) :
  compress_quadtree qt th = Ok qt' →
  1 ≤ count_nodes (Some (root qt')) ≤ count_nodes (Some (root qt)).
Proof.
  unfold compress_quadtree. intros H. inv_bind H. inversion H; subst; clear H.
  simpl. split; [apply count_nodes_rec_pos|by eapply compress_count].
Qed.

Lemma compress_count_le_witness :
  1 ≤ count_nodes (Some (root (set_root qt2x2
        {| color := Some (Scalar (42 # 4)); nw := None; ne := None;
           sw := None; se := None; ul_x := 0; ul_y := 0; dr_x := 1; dr_y := 1;
           level := 0 |})))
    ≤ count_nodes (Some (root qt2x2)).
Proof.
  apply (compress_count_le qt2x2 _ 100). vm_compute. reflexivity.
Defined.

Lemma Qsum_nonneg xs : Forall (fun x => (0 <= x)%Q) xs → (0 <= Qsum xs)%Q.
Proof.
  induction 1 as [|x xs Hx _ IH]; simpl; [apply Qle_refl|].
  replace 0%Q with (0 + 0)%Q by reflexivity. by apply Qplus_le_compat.
Qed.

Lemma np_mean_nonneg xs : Forall (fun x => (0 <= x)%Q) xs → (0 <= np_mean xs)%Q.
Proof.
  intros H. unfold np_mean, Qdiv.
  apply Qmult_le_0_compat; [by apply Qsum_nonneg|].
  apply Qinv_le_0_compat. change 0%Q with (inject_Z 0).
  rewrite <- Zle_Qle. lia.
Qed.

Lemma Qsq_nonneg (x : Q) : (0 <= x * x)%Q.
Proof. unfold Qle. simpl. rewrite Z.mul_1_r. apply Z.square_nonneg. Qed.

Lemma np_var_nonneg xs : (0 <= np_var xs)%Q.
Proof.
  unfold np_var. apply np_mean_nonneg, Forall_forall. intros x Hx.
  apply list_elem_of_In, in_map_iff in Hx. destruct Hx as (y & <- & _).
  apply Qsq_nonneg.
Qed.

Lemma difference_nonneg st : (0 <= np_sum (np_var_axis0 st))%Q.
Proof.
  destruct st as [xs|n rows]; simpl; [apply np_var_nonneg|].
  apply Qsum_nonneg, Forall_forall. intros x Hx.
  apply list_elem_of_In, in_map_iff in Hx. destruct Hx as (j & <- & _).
  apply np_var_nonneg.
Qed.

(** With a threshold that is not positive, [combine_colors] never merges. *)
Lemma combine_colors_nonpos node th r :
  (th <= 0)%Q → combine_colors node th = Ok r → r = None.
Proof.
  intros Hth. unfold combine_colors. intros H.
  inv_bind H. destruct r0; [|by inversion H].
  inv_bind H. destruct r0; [|by inversion H].
  inv_bind H. destruct r0; [|by inversion H].
  inv_bind H. destruct r0; [|by inversion H].
  inv_bind H.
  destruct (Qltb _ th) eqn:El; [|by inversion H].
  apply Qltb_lt in El. pose proof (difference_nonneg r0) as Hd.
  exfalso. apply (Qlt_not_le _ _ El). by eapply Qle_trans.
Qed.

Lemma compress_nonpos s qt th n :
  (th <= 0)%Q → shaped s n → compress_quadtree_recursive qt n th = Ok n.
Proof.
  intros Hth. induction 1 as [n c Hc Hs H1 H2 H3 H4
                 |n a b c d Hc Ha Hb Hcc Hd Sa IHa Sb IHb Sc IHc Sd IHd].
  - by apply compress_leaf.
  - rewrite compress_unfold, Ha, Hb, Hcc, Hd. cbv beta iota zeta.
    rewrite IHa, IHb, IHc, IHd. simpl.
    destruct (combine_colors_shaped s
                (set_children n (Some a) (Some b) (Some c) (Some d)) th
                a b c d) as (r & Er & _);
      try done; try by apply shaped_color_ok.
    rewrite Er. rewrite (combine_colors_nonpos _ _ _ Hth Er). simpl.
    destruct n. simpl in *. by subst.
Qed.

(** X6. A threshold that is zero or negative compresses nothing: on every
    quadtree produced by build (and possibly compressed or rendered since),
    compression returns the quadtree unchanged, because a sum of variances is
    never below such a threshold. *)
Theorem compress_nonpositive_threshold (qt : Quadtree) (th : Q) :
  reachable qt → (th <= 0)%Q → compress_quadtree qt th = Ok qt.
Proof.
  intros Hr Hth. destruct (reachable_inv qt Hr) as (_ & Hs & _).
  unfold compress_quadtree. rewrite (compress_nonpos _ qt th _ Hth Hs).
  simpl. by destruct qt.
Qed.

Lemma compress_nonpositive_threshold_witness :
  compress_quadtree qt2x2 0 = Ok qt2x2.
Proof.
  apply (compress_nonpositive_threshold qt2x2 0 qt2x2_reachable).
  apply Qle_refl.
Defined.

(** ** The closed form of [max_num_nodes] *)



(** ** What a rendering shows *)







Lemma built2x2_ok : built2x2 = Ok qt2x2.
Proof. reflexivity. Defined.






(** ** Levels *)

Lemma levelled_unfold l n :
  levelled l n ↔
  level n = l ∧ opt_all (levelled (l + 1)) (nw n)
  ∧ opt_all (levelled (l + 1)) (ne n) ∧ opt_all (levelled (l + 1)) (sw n)
  ∧ opt_all (levelled (l + 1)) (se n).
Proof. by destruct n. Qed.

Lemma build_levelled qt fuel :
  ∀ node t,
    nw node = None → ne node = None → sw node = None → se node = None →
    build_quadtree_recursive fuel qt node = Ok t →
    levelled (level node) t.
Proof.
  induction fuel as [|fuel IH]; intros node t H1 H2 H3 H4 H; [done|].
  cbn [build_quadtree_recursive] in H.
  destruct ((dr_x node - ul_x node =? 0) && (dr_y node - ul_y node =? 0)).
  - inv_bind H. inversion H; subst. apply levelled_unfold. simpl.
    by rewrite H1, H2, H3, H4.
  - inv_bind H. inv_bind H. inv_bind H. inv_bind H.
    inv_bind H. inv_bind H. inv_bind H. inv_bind H.
    inversion H; subst. apply levelled_unfold. simpl.
    split; [done|].
    destruct r as [[[? ?] ?] ?], r1 as [[[? ?] ?] ?],
             r3 as [[[? ?] ?] ?], r5 as [[[? ?] ?] ?].
    repeat split.
    + apply IH in E0; [exact E0|done..].
    + apply IH in E2; [exact E2|done..].
    + apply IH in E4; [exact E4|done..].
    + apply IH in E6; [exact E6|done..].
Qed.

Lemma compress_levelled qt th (n : Node) :
  ∀ l n', levelled l n → compress_quadtree_recursive qt n th = Ok n' →
          levelled l n'.
Proof.
  induction n as [col a b c d x0 y0 x1 y1 lv IHa IHb IHc IHd] using Node_ind.
  intros l n' Hl H.
  destruct (decide (a = None ∧ b = None ∧ c = None ∧ d = None)) as [Hn|Hn].
  - destruct Hn as (-> & -> & -> & ->). rewrite compress_leaf in H by done.
    by inversion H; subst.
  - apply compress_inner in H; [|exact Hn].
    destruct H as (ka & kb & kc & kd & a' & b' & c' & d' & cl & Ha & Hb & Hc
                   & Hd & Ea & Eb & Ec & Ed & _ & ->).
    simpl in Ha, Hb, Hc, Hd. subst a b c d. simpl in IHa, IHb, IHc, IHd.
    apply levelled_unfold in Hl. simpl in Hl.
    destruct Hl as (Hlv & La & Lb & Lc & Ld).
    destruct cl; apply levelled_unfold; simpl; [done|].
    split; [done|]. repeat split; eauto.
Qed.

Lemma levelled_depth d n m :
  at_depth d n m → ∀ l, levelled l n → level m = l + Z.of_nat d.
Proof.
  induction 1 as [n|d n c m Hn _ IH|d n c m Hn _ IH
                 |d n c m Hn _ IH|d n c m Hn _ IH]; intros l Hl;
    apply levelled_unfold in Hl; destruct Hl as (Hlv & La & Lb & Lc & Ld).
  - lia.
  - rewrite Hn in La. rewrite (IH _ La). lia.
  - rewrite Hn in Lb. rewrite (IH _ Lb). lia.
  - rewrite Hn in Lc. rewrite (IH _ Lc). lia.
  - rewrite Hn in Ld. rewrite (IH _ Ld). lia.
Qed.

Lemma reachable_levelled qt : reachable qt → levelled 0 (root qt).
Proof.
  induction 1 as [img fuel qt Hwf Hb
                 |qt th qt' Hr IH Hc
                 |g qt db qt' out Hr IH Hq].
  - unfold build_quadtree in Hb. inv_bind Hb. inversion Hb; subst; clear Hb.
    simpl. apply build_levelled in E; [exact E|done..].
  - unfold compress_quadtree in Hc. inv_bind Hc. inversion Hc; subst; clear Hc.
    simpl. by eapply compress_levelled.
  - apply quadtree_to_image_spec in Hq. destruct Hq as (R & _). by rewrite R.
Qed.

(** X10. In every quadtree produced by build (and possibly compressed or
    rendered since), the level stored in a node is its depth: the root has
    level 0 and a node [d] child links below the root has level [d]. *)
Theorem level_is_depth (qt : Quadtree) (d : nat) (m : Node) :
  reachable qt → at_depth d (root qt) m → level m = Z.of_nat d.
Proof.
  intros Hr Hd.
  by rewrite (levelled_depth _ _ _ Hd 0 (reachable_levelled qt Hr)).
Qed.

Lemma level_is_depth_witness : level leaf00 = Z.of_nat 1.
Proof.
  apply (level_is_depth qt2x2 1 leaf00 qt2x2_reachable).
  eapply depth_nw; [reflexivity|]. apply depth_here.
Defined.

(** ** Compressed colours are block averages *)


















(** ** Uniform images collapse *)













(** ** Monotonicity in the threshold *)





(** ** The images on which build returns *)

Lemma compute_image_corners_child node child sx sy :
  quadrant_shift child = Ok (sx, sy) →
  compute_image_corners node child =
  Ok (child_lo (ul_x node) (dr_x node) sx, child_lo (ul_y node) (dr_y node) sy,
      child_hi (ul_x node) (dr_x node) sx, child_hi (ul_y node) (dr_y node) sy).
Proof. intros Hs. exact (compute_image_corners_quot node child sx sy Hs). Qed.

Lemma child_wide u d s :
  0 ≤ u → 2 ≤ d - u + 1 → (s = 0 ∨ s = 1) →
  child_lo u d s = u + s * ((d - u + 1) / 2) ∧
  child_hi u d s = child_lo u d s + (d - u + 1) / 2 - 1.
Proof.
  intros Hu Hw Hs. unfold child_hi, child_lo.
  destruct Hs as [->| ->]; Z.to_euclidean_division_equations; lia.
Qed.

Lemma child_unit0 s :
  (s = 0 ∨ s = 1) → child_lo 0 0 s = 0 ∧ child_hi 0 0 s = 0.
Proof. by intros [->| ->]. Qed.

Lemma child_unit u s :
  1 ≤ u → (s = 0 ∨ s = 1) → child_lo u u s = u ∧ child_hi u u s = u - 1.
Proof.
  intros Hu Hs. unfold child_hi, child_lo.
  destruct Hs as [->| ->]; Z.to_euclidean_division_equations; lia.
Qed.

Lemma term_axis_child k u d s :
  term_axis (S k) u d → (s = 0 ∨ s = 1) →
  term_axis k (child_lo u d s) (child_hi u d s).
Proof.
  intros [Hu [Hr|[-> ->]]] Hs.
  - pose proof (side_pos k). rewrite !side_S in Hr.
    destruct (child_wide u d s Hu ltac:(lia) Hs) as [-> ->].
    pose proof (div2_bounds (d - u + 1) ltac:(lia)).
    split; [destruct Hs as [->| ->]; lia|]. left. rewrite side_S. lia.
  - destruct (child_unit0 s Hs) as [-> ->]. split; [lia|by right].
Qed.

Lemma in_image_corners a nd node :
  corners_of nd = corners_of node → in_image a node → in_image a nd.
Proof.
  unfold corners_of. intros [= E1 E2 E3 E4]. unfold in_image.
  by rewrite E1, E2, E3, E4.
Qed.

(** A rectangle whose two sides reach length 1 together is built with as
    much fuel as halvings, plus one. *)
Lemma build_returns_rect qt :
  wf_array (image qt) →
  ∀ k node, in_image (image qt) node →
    term_axis k (ul_x node) (dr_x node) → term_axis k (ul_y node) (dr_y node) →
    ∃ t, build_quadtree_recursive (S k) qt node = Ok t.
Proof.
  intros Hwf. induction k as [|k IH]; intros node Hin Tx Ty;
    [|remember (S k) as f eqn:Ef]; cbn [build_quadtree_recursive];
    destruct ((dr_x node - ul_x node =? 0) && (dr_y node - ul_y node =? 0))
      eqn:Et.
  1, 3: apply andb_true_iff in Et; destruct Et as [Ex Ey];
    destruct Hin as (Hx0 & Hx1 & Hx2 & Hy0 & Hy1 & Hy2);
    destruct (np_getitem_inb (image qt) (ul_y node) (ul_x node) Hwf)
      as [c ->]; [lia..|]; cbn [bind]; eauto.
  - exfalso. apply andb_false_iff in Et.
    destruct Tx as [_ Tx], Ty as [_ Ty]. rewrite side_S, side_0 in Tx, Ty.
    destruct Et as [Et|Et]; apply Z.eqb_neq in Et; lia.
  - subst f.
    assert (Hchild : ∀ nd tag sx sy,
      corners_of nd = corners_of node → quadrant_shift tag = Ok (sx, sy) →
      ∃ cs, compute_image_corners nd tag = Ok cs ∧
            ∀ l, ∃ t, build_quadtree_recursive (S k) qt (Node_init None cs l)
                      = Ok t).
    { intros nd tag sx sy Hcor Hs.
      pose proof (in_image_corners _ _ _ Hcor Hin) as Hin'.
      destruct (child_in_image _ nd tag sx sy 0 Hin' Hs) as (cs & Ec & Hc).
      exists cs. split; [done|]. intros l.
      pose proof (compute_image_corners_child nd tag sx sy Hs) as F.
      rewrite Ec in F. injection F as ->.
      destruct (quadrant_shift_bit _ _ _ Hs) as [Bx By].
      unfold corners_of in Hcor. injection Hcor as E1 E2 E3 E4.
      apply IH; [exact Hc|simpl; rewrite E1, E3|simpl; rewrite E2, E4];
        by apply term_axis_child. }
    destruct (Hchild node "nw"%string 0 0 eq_refl eq_refl) as (c1 & -> & N1).
    cbn [bind]. edestruct N1 as [t1 E1]. rewrite E1. cbn [bind].
    destruct (Hchild (set_nw node (Some t1)) "ne"%string 1 0 eq_refl eq_refl)
      as (c2 & -> & N2).
    cbn [bind]. edestruct N2 as [t2 E2]. rewrite E2. cbn [bind].
    destruct (Hchild (set_ne (set_nw node (Some t1)) (Some t2)) "sw"%string 0 1
                eq_refl eq_refl) as (c3 & -> & N3).
    cbn [bind]. edestruct N3 as [t3 E3]. rewrite E3. cbn [bind].
    destruct (Hchild (set_sw (set_ne (set_nw node (Some t1)) (Some t2)) (Some t3))
                "se"%string 1 1 eq_refl eq_refl) as (c4 & -> & N4).
    cbn [bind]. edestruct N4 as [t4 E4]. rewrite E4. cbn [bind]. eauto.
Qed.

(** A node with a quadrant on which build does not return does not return
    either: the quadrants before it return or do not, none raises. *)
Lemma build_starves qt fuel node sx sy :
  wf_array (image qt) → in_image (image qt) node →
  (dr_x node - ul_x node =? 0) && (dr_y node - ul_y node =? 0) = false →
  (sx = 0 ∨ sx = 1) → (sy = 0 ∨ sy = 1) →
  (∀ l, build_quadtree_recursive fuel qt
          (Node_init None
             (child_lo (ul_x node) (dr_x node) sx,
              child_lo (ul_y node) (dr_y node) sy,
              child_hi (ul_x node) (dr_x node) sx,
              child_hi (ul_y node) (dr_y node) sy) l) = OutOfFuel) →
  build_quadtree_recursive (S fuel) qt node = OutOfFuel.
Proof.
  intros Hwf Hin Et Bx By Hd. cbn [build_quadtree_recursive]. rewrite Et.
  assert (Hchild : ∀ nd tag tx ty l,
    corners_of nd = corners_of node → quadrant_shift tag = Ok (tx, ty) →
    compute_image_corners nd tag =
      Ok (child_lo (ul_x node) (dr_x node) tx,
          child_lo (ul_y node) (dr_y node) ty,
          child_hi (ul_x node) (dr_x node) tx,
          child_hi (ul_y node) (dr_y node) ty) ∧
    ∀ e, build_quadtree_recursive fuel qt
           (Node_init None
              (child_lo (ul_x node) (dr_x node) tx,
               child_lo (ul_y node) (dr_y node) ty,
               child_hi (ul_x node) (dr_x node) tx,
               child_hi (ul_y node) (dr_y node) ty) l) ≠ Raise e).
  { intros nd tag tx ty l Hcor Hs.
    pose proof (in_image_corners _ _ _ Hcor Hin) as Hin'.
    destruct (child_in_image _ nd tag tx ty l Hin' Hs) as (cs & Ec & Hc).
    pose proof (compute_image_corners_child nd tag tx ty Hs) as F.
    unfold corners_of in Hcor. injection Hcor as E1 E2 E3 E4.
    rewrite E1, E2, E3, E4 in F. split; [exact F|].
    rewrite Ec in F. injection F as ->. intros e. by apply build_no_raise. }
  destruct (Hchild node "nw"%string 0 0 (level node + 1) eq_refl eq_refl)
    as [-> N1].
  cbn [bind].
  destruct (build_quadtree_recursive fuel qt
              (Node_init None (child_lo _ _ 0, child_lo _ _ 0, _, _) _))
    as [t1|e1|] eqn:B1; [|by destruct (N1 e1)|done].
  cbn [bind].
  destruct (Hchild (set_nw node (Some t1)) "ne"%string 1 0 (level node + 1)
              eq_refl eq_refl) as [-> N2].
  cbn [bind]. change (level (set_nw node (Some t1))) with (level node).
  destruct (build_quadtree_recursive fuel qt
              (Node_init None (child_lo _ _ 1, child_lo _ _ 0, _, _) _))
    as [t2|e2|] eqn:B2; [|by destruct (N2 e2)|done].
  cbn [bind].
  destruct (Hchild (set_ne (set_nw node (Some t1)) (Some t2)) "sw"%string 0 1
              (level node + 1) eq_refl eq_refl) as [-> N3].
  cbn [bind].
  change (level (set_ne (set_nw node (Some t1)) (Some t2))) with (level node).
  destruct (build_quadtree_recursive fuel qt
              (Node_init None (child_lo _ _ 0, child_lo _ _ 1, _, _) _))
    as [t3|e3|] eqn:B3; [|by destruct (N3 e3)|done].
  cbn [bind].
  destruct (Hchild (set_sw (set_ne (set_nw node (Some t1)) (Some t2)) (Some t3))
              "se"%string 1 1 (level node + 1) eq_refl eq_refl) as [-> N4].
  cbn [bind].
  change (level (set_sw (set_ne (set_nw node (Some t1)) (Some t2)) (Some t3)))
    with (level node).
  destruct (build_quadtree_recursive fuel qt
              (Node_init None (child_lo _ _ 1, child_lo _ _ 1, _, _) _))
    as [t4|e4|] eqn:B4; [|by destruct (N4 e4)|done].
  exfalso.
  destruct Bx as [->| ->], By as [->| ->];
    [rewrite Hd in B1|rewrite Hd in B3|rewrite Hd in B2|rewrite Hd in B4];
    discriminate.
Qed.

(** The east (or south) quadrant of a narrow rectangle is narrow again, or
    empty. *)
Lemma narrow_child u d v e :
  narrow u d v e →
  2 ≤ e - v + 1 ∧
  (child_hi u d 1 - child_lo u d 1 + 1 = 0 ∨
   narrow (child_lo u d 1) (child_hi u d 1) (child_lo v e 0) (child_hi v e 0)).
Proof.
  intros (Hu & Hv & Hw & Hor & k & Hk1 & Hk2).
  destruct k as [|k]; [rewrite side_0 in Hk1; lia|].
  rewrite side_S in Hk1, Hk2. pose proof (side_pos k) as Hp.
  split; [lia|].
  destruct (decide (d - u + 1 = 1)) as [E1|E1].
  - left. assert (d = u) as -> by lia.
    destruct (child_unit u 1) as [-> ->]; lia.
  - right.
    destruct (child_wide u d 1 Hu ltac:(lia) ltac:(by right)) as [-> ->].
    destruct (child_wide v e 0 Hv ltac:(lia) ltac:(by left)) as [-> ->].
    pose proof (div2_bounds (d - u + 1) ltac:(lia)).
    pose proof (div2_bounds (e - v + 1) ltac:(lia)).
    unfold narrow. repeat split; try lia. exists k. lia.
Qed.

Lemma build_narrow_diverges qt :
  wf_array (image qt) →
  ∀ fuel node, in_image (image qt) node →
    narrow (ul_x node) (dr_x node) (ul_y node) (dr_y node) ∨
    narrow (ul_y node) (dr_y node) (ul_x node) (dr_x node) →
    build_quadtree_recursive fuel qt node = OutOfFuel.
Proof.
  intros Hwf. induction fuel as [|fuel IH]; intros node Hin Hn; [done|].
  assert (Hc : ∀ l sx sy, (sx = 0 ∨ sx = 1) → (sy = 0 ∨ sy = 1) →
    in_image (image qt)
      (Node_init None
         (child_lo (ul_x node) (dr_x node) sx,
          child_lo (ul_y node) (dr_y node) sy,
          child_hi (ul_x node) (dr_x node) sx,
          child_hi (ul_y node) (dr_y node) sy) l)).
  { intros l sx sy Bx By.
    destruct Hin as (Hx0 & Hx1 & Hx2 & Hy0 & Hy1 & Hy2).
    pose proof (quadrant_axis (ul_x node) (dr_x node) sx Hx0 Hx1 Bx) as Ax.
    pose proof (quadrant_axis (ul_y node) (dr_y node) sy Hy0 Hy1 By) as Ay.
    cbv zeta in Ax, Ay. unfold in_image, Node_init, child_hi, child_lo.
    simpl. lia. }
  destruct Hn as [Hn|Hn]; destruct (narrow_child _ _ _ _ Hn) as [Hlong Hch].
  - apply (build_starves qt fuel node 1 0); auto.
    { apply andb_false_iff. right. apply Z.eqb_neq. lia. }
    intros l. destruct Hch as [Hz|Hn'].
    + apply build_empty_rect. left. exact Hz.
    + apply IH; [apply Hc; auto|]. left. exact Hn'.
  - apply (build_starves qt fuel node 0 1); auto.
    { apply andb_false_iff. left. apply Z.eqb_neq. lia. }
    intros l. destruct Hch as [Hz|Hn'].
    + apply build_empty_rect. right. exact Hz.
    + apply IH; [apply Hc; auto|]. right. exact Hn'.
Qed.

Lemma side_log2 n : 1 ≤ n → ∃ k, side k ≤ n < side (S k).
Proof.
  intros Hn. exists (Z.to_nat (Z.log2 n)).
  pose proof (Z.log2_nonneg n). pose proof (Z.log2_spec n ltac:(lia)) as Hs.
  unfold side. rewrite Nat2Z.inj_succ, Z2Nat.id by lia. exact Hs.
Qed.

Lemma side_mono j k : (j ≤ k)%nat → side j ≤ side k.
Proof. intros H. unfold side. apply Z.pow_le_mono_r; lia. Qed.

(** X14. Build returns exactly on the images with at least one row and one
    column that are one pixel wide, or one pixel high, or whose height and
    width lie between the same two consecutive powers of two.  On every
    other image the recursion reaches a rectangle with an empty side and has
    no end.  (A square image of side [2^k] is the case the module is written
    for; a 3x3 or a 5x7 image is built over four quadrants of truncated
    size, a 2x4 image never finishes.) *)
Theorem build_returns_iff (img : ndarray) :
  wf_array img →
  ((∃ fuel qt, build_quadtree fuel (Quadtree_init img) = Ok qt) ↔
   returns_on (Z.of_nat (height img)) (Z.of_nat (width img))).
Proof.
  intros Hwf. unfold build_quadtree.
  assert (Hin : in_image img (root (Quadtree_init img)))
    by (unfold in_image; simpl; lia).
  split.
  - intros (fuel & qt & H). inv_bind H. clear H.
    destruct (decide (height img = 0%nat ∨ width img = 0%nat)) as [Hz|Hz].
    { rewrite build_empty_rect in E; [done|].
      simpl. destruct Hz as [->| ->]; [right|left]; done. }
    assert (Hh : 1 ≤ Z.of_nat (height img)) by lia.
    assert (Hw : 1 ≤ Z.of_nat (width img)) by lia.
    split; [done|]. split; [done|].
    destruct (decide (Z.of_nat (width img) = 1)) as [W1|W1]; [by left|].
    destruct (decide (Z.of_nat (height img) = 1)) as [H1|H1]; [by right; left|].
    right. right.
    destruct (side_log2 _ Hw) as (kw & Kw). destruct (side_log2 _ Hh) as (kh & Kh).
    destruct (decide (kw = kh)) as [->|Hne]; [by exists kh|].
    exfalso.
    rewrite (build_narrow_diverges (Quadtree_init img) Hwf fuel _ Hin) in E;
      [done|].
    simpl. unfold narrow.
    destruct (decide (kw < kh)%nat) as [Hlt|Hge]; [left|right].
    + pose proof (side_mono (S kw) kh ltac:(lia)).
      repeat split; try lia. exists (S kw). lia.
    + pose proof (side_mono (S kh) kw ltac:(lia)).
      repeat split; try lia. exists (S kh). lia.
  - intros (Hh & Hw & Hc).
    assert (∃ k, term_axis k 0 (Z.of_nat (width img) - 1) ∧
                 term_axis k 0 (Z.of_nat (height img) - 1)) as (k & Tx & Ty).
    { unfold term_axis. destruct Hc as [W1|[H1|(k & Kw & Kh)]].
      - destruct (side_log2 _ Hh) as (k & Kh). exists k.
        split; (split; [lia|]); [right|left]; lia.
      - destruct (side_log2 _ Hw) as (k & Kw). exists k.
        split; (split; [lia|]); [left|right]; lia.
      - exists k. split; (split; [lia|]); left; lia. }
    destruct (build_returns_rect (Quadtree_init img) Hwf k _ Hin Tx Ty)
      as [t Et].
    exists (S k). rewrite Et. cbn [bind]. eauto.
Qed.

Lemma img3x1_wf : wf_array img3x1.
Proof. repeat split; repeat constructor. Defined.

Lemma build_returns_iff_witness :
  (∃ fuel qt, build_quadtree fuel (Quadtree_init img3x1) = Ok qt) ↔
  returns_on 3 1.
Proof. exact (build_returns_iff img3x1 img3x1_wf). Defined.

(** ** Before build *)

(** X15. A quadtree that has not been built yet consists of its root alone,
    without colour: compression returns it unchanged, whatever the
    threshold, and rendering fails, with the attribute error of reading the
    colour of a child that is [None]. *)
Theorem unbuilt_quadtree (img : ndarray) (th : Q) (g : nat → Q) (db : bool) :
  count_nodes (Some (root (Quadtree_init img))) = 1 ∧
  compress_quadtree (Quadtree_init img) th = Ok (Quadtree_init img) ∧
  quadtree_to_image g (Quadtree_init img) db = Raise AttributeError.
Proof. done. Qed.
